(** * k8s-cfgenerator: the command-line driver [cmd/cfgenerator/main.go]

    The driver parses its flags, looks the interpreter up, opens the input,
    asks [internal.Generate] for the rendered content, opens every output
    and prints the content to each of them.  Every call that leaves the
    function [run] (opening, generating, printing, closing) is an effect of
    a small free monad; an environment answers the calls and the executor
    records each call with its answer in a trace. *)

From Stdlib Require Import Ascii.
From stdpp Require Import gmap strings list fin_maps.


Local Open Scope Z_scope.

(** ** Values of the program *)

(** A Go [error], represented by its message; [nil] is [None] where the
    type is [option error]. *)
Definition error := string.

(** An [*os.File], represented by its descriptor. *)
Definition File := nat.

(** Modelled from the spec: the package [internal/interpreter] is not part
    of the sources at hand.  The interpreters are "one of variants
    {Plain, Jsonnet}". *)
Inductive Interpreter := Plain | Jsonnet.

(** ** Calls that leave [main.go]

    [file.OpenInput], [internal.Generate] and [file.OpenOutput] belong to
    packages of the repository that [main.go] imports; [fmt.Fprint] and
    [File.Close] are the writes and the deferred closes of [run];
    [fmt.Fprintln(os.Stderr, _)] prints an error and [flag.Usage] prints
    [usageFmt] for the given program name.  The index of a call is the
    type of its answer; a Go pair [(v, err)] of which one side is [nil] is
    a sum. *)

Inductive Call : Type -> Type :=
| file_OpenInput (path : string) : Call (File + error)
| internal_Generate (runtime : Interpreter) (input : File) (volumes : list string)
    : Call (string + error)
| file_OpenOutput (path : string) : Call (File + error)
| fmt_Fprint (w : option File) (content : string) : Call (Z * option error)
| File_Close (f : File) : Call (option error)
| fmt_Fprintln_Stderr (msg : string) : Call unit
| flag_Usage (program : string) : Call unit.

Inductive Prog (A : Type) : Type :=
| Ret (a : A)
| Vis {R : Type} (c : Call R) (k : R -> Prog A).
Arguments Ret {A} a.
Arguments Vis {A R} c k.

Fixpoint bind {A B : Type} (p : Prog A) (f : A -> Prog B) : Prog B :=
  match p with
  | Ret a => f a
  | Vis c k => Vis c (fun r => bind (k r) f)
  end.

Definition call {R : Type} (c : Call R) : Prog R := Vis c Ret.

#[export] Instance Prog_ret : MRet Prog := @Ret.
#[export] Instance Prog_bind : MBind Prog := fun A B f p => bind p f.

(** ** Traces *)

Inductive Event :=
| EvOpenInput (path : string) (r : File + error)
| EvGenerate (runtime : Interpreter) (input : File) (volumes : list string)
    (r : string + error)
| EvOpenOutput (path : string) (r : File + error)
| EvFprint (w : option File) (content : string) (r : Z * option error)
| EvClose (f : File) (r : option error)
| EvStderr (msg : string)
| EvUsage (program : string).

Definition event {R : Type} (c : Call R) : R -> Event :=
  match c in Call R return R -> Event with
  | file_OpenInput path => EvOpenInput path
  | internal_Generate runtime input volumes => EvGenerate runtime input volumes
  | file_OpenOutput path => EvOpenOutput path
  | fmt_Fprint w content => EvFprint w content
  | File_Close f => EvClose f
  | fmt_Fprintln_Stderr msg => fun _ => EvStderr msg
  | flag_Usage program => fun _ => EvUsage program
  end.

(** An environment answers every call from its current state. *)
Definition Env (W : Type) : Type := forall R : Type, Call R -> W -> R * W.

Fixpoint exec {W A : Type} (env : Env W) (p : Prog A) (w : W) : A * W * list Event :=
  match p with
  | Ret a => (a, w, [])
  | Vis c k =>
      let '(r, w1) := env _ c w in
      let '(a, w2, tr) := exec env (k r) w1 in
      (a, w2, event c r :: tr)
  end.

(** ** [stringsFlag] *)

Definition stringsFlag := list string.

Fixpoint strings_Join (elems : list string) (sep : string) : string :=
  match elems with
  | [] => ""
  | [e] => e
  | e :: rest => e +:+ sep +:+ strings_Join rest sep
  end.

Definition stringsFlag_String (s : stringsFlag) : string := strings_Join s ", ".

Definition stringsFlag_Set (s : stringsFlag) (value : string) : stringsFlag * option error :=
  (s ++ [value], None).

(** ** [run] *)

Section Run.

(** [interpreter.Get]: the registry lookup, a table of the absent package
    [internal/interpreter]. *)
Variable interpreter_Get : string -> option Interpreter.

(** The loop [for i, outputPath := range outputPaths]: [outputs] is the
    slice being filled, [defers] the stack of files whose [Close] has been
    deferred so far (newest first).  The result is the stack of deferred
    closes together with either the error returned from inside the loop or
    the filled slice. *)
Fixpoint open_outputs (i : nat) (outputPaths : list string)
    (outputs : list (option File)) (defers : list File)
    : Prog (list File * (error + list (option File))) :=
  match outputPaths with
  | [] => mret (defers, inr outputs)
  | outputPath :: rest =>
      r ← call (file_OpenOutput outputPath);
      match r with
      | inr err =>
          mret (defers,
                inl ("can't open output file '" +:+ outputPath +:+ "': " +:+ err))
      | inl output =>
          open_outputs (S i) rest (<[i := Some output]> outputs) (output :: defers)
      end
  end.

(** The loop [for i := range outputs { fmt.Fprint(outputs[i], content) }]:
    both results of [Fprint] are dropped. *)
Fixpoint write_outputs (outputs : list (option File)) (content : string) : Prog unit :=
  match outputs with
  | [] => mret tt
  | output :: rest =>
      _ ← call (fmt_Fprint output content);
      write_outputs rest content
  end.

(** The deferred [Close] calls run when [run] returns, last deferred first;
    their results are dropped. *)
Fixpoint run_deferred (defers : list File) : Prog unit :=
  match defers with
  | [] => mret tt
  | f :: rest =>
      _ ← call (File_Close f);
      run_deferred rest
  end.

(** The body of [run] up to its [return]: the deferred closes and the
    returned error. *)
Definition run_body (interpreterName inputPath : string)
    (outputPaths volumes : list string) : Prog (list File * option error) :=
  match interpreter_Get interpreterName with
  | None => mret ([], Some ("unsupported interpreter '" +:+ interpreterName +:+ "'"))
  | Some runtime =>
      r ← call (file_OpenInput inputPath);
      match r with
      | inr err =>
          mret ([], Some ("can't open input file '" +:+ inputPath +:+ "': " +:+ err))
      | inl input =>
          let defers := [input] in
          g ← call (internal_Generate runtime input volumes);
          match g with
          | inr err => mret (defers, Some ("can't generate content: " +:+ err))
          | inl content =>
              let outputs := replicate (length outputPaths) None in
              o ← open_outputs 0 outputPaths outputs defers;
              match o with
              | (defers, inl err) => mret (defers, Some err)
              | (defers, inr outputs) =>
                  _ ← write_outputs outputs content;
                  mret (defers, None)
              end
          end
      end
  end.

Definition run (interpreterName inputPath : string)
    (outputPaths volumes : list string) : Prog (option error) :=
  '(defers, err) ← run_body interpreterName inputPath outputPaths volumes;
  _ ← run_deferred defers;
  mret err.

End Run.

(** ** The command line: package [flag] as [main] uses it *)

Record Config := {
  InterpreterName : string;
  In : string;
  Outs : stringsFlag;
}.

(** The flags [main] defines: [flag.StringVar(&cfg.InterpreterName,
    "interpreter", ...)], [flag.StringVar(&cfg.In, "in", ...)] and
    [flag.Var(&cfg.Outs, "out", "")]. *)
Inductive Flag := interpreter_flag | in_flag | out_flag.

(** The lookup [f.formal[name]]. *)
Definition formal (name : string) : option Flag :=
  if String.eqb name "interpreter" then Some interpreter_flag
  else if String.eqb name "in" then Some in_flag
  else if String.eqb name "out" then Some out_flag
  else None.

(** [flag.Value.Set(value)]: a string flag stores the value, [-out] goes
    through [stringsFlag.Set]. *)
Definition Value_Set (f : Flag) (value : string) (cfg : Config) : Config * option error :=
  match f with
  | interpreter_flag =>
      ({| InterpreterName := value; In := In cfg; Outs := Outs cfg |}, None)
  | in_flag =>
      ({| InterpreterName := InterpreterName cfg; In := value; Outs := Outs cfg |}, None)
  | out_flag =>
      let '(outs, err) := stringsFlag_Set (Outs cfg) value in
      ({| InterpreterName := InterpreterName cfg; In := In cfg; Outs := outs |}, err)
  end.

(** What [FlagSet.parseOne] makes of one argument. *)
Inductive Arg :=
| NonFlag                                   (* shorter than 2 or no leading '-' *)
| Terminator                                (* exactly "--" *)
| BadSyntax
| FlagArg (name : string) (value : option string).

(** The first '=' of [s], if any: what is before it and what is after. *)
Fixpoint cut_at_equals (s : string) : option (string * string) :=
  match s with
  | EmptyString => None
  | String c r =>
      if Ascii.eqb c "="%char then Some (EmptyString, r)
      else match cut_at_equals r with
           | Some (n, v) => Some (String c n, v)
           | None => None
           end
  end.

(** [name] is the argument without its one or two minus signs. *)
Definition flag_name (name : string) : Arg :=
  match name with
  | EmptyString => BadSyntax
  | String c r =>
      if Ascii.eqb c "-"%char || Ascii.eqb c "="%char then BadSyntax
      else match cut_at_equals r with        (* "equals cannot be first" *)
           | Some (n, v) => FlagArg (String c n) (Some v)
           | None => FlagArg name None
           end
  end.

Definition parse_arg (s : string) : Arg :=
  match s with
  | String c0 (String c1 r as t) =>
      if negb (Ascii.eqb c0 "-"%char) then NonFlag
      else if Ascii.eqb c1 "-"%char then
        match r with
        | EmptyString => Terminator
        | _ => flag_name r
        end
      else flag_name t
  | _ => NonFlag
  end.

Inductive ParseOutcome :=
| Parsed (cfg : Config) (actual : list string) (args : list string)
| ErrHelp
| ParseError (msg : string).

Definition double_quote : string := String (Ascii.ascii_of_nat 34) EmptyString.

(** [FlagSet.Parse]: [parseOne] until it sees no flag.  [actual] lists the
    names of the flags set so far (the key set of [f.actual]), [args] are
    the remaining, positional arguments.  No flag of this program is
    boolean, so a flag without [=value] takes the next argument. *)
Fixpoint flag_Parse (arguments : list string) (cfg : Config) (actual : list string)
    : ParseOutcome :=
  match arguments with
  | [] => Parsed cfg actual []
  | s :: rest =>
      match parse_arg s with
      | NonFlag => Parsed cfg actual arguments
      | Terminator => Parsed cfg actual rest
      | BadSyntax => ParseError ("bad flag syntax: " +:+ s)
      | FlagArg name hasValue =>
          match formal name with
          | None =>
              if String.eqb name "help" || String.eqb name "h" then ErrHelp
              else ParseError ("flag provided but not defined: -" +:+ name)
          | Some f =>
              let set value rest :=
                match Value_Set f value cfg with
                | (cfg', None) => flag_Parse rest cfg' (actual ++ [name])
                | (_, Some err) =>
                    ParseError ("invalid value " +:+ double_quote +:+ value
                                +:+ double_quote +:+ " for flag -" +:+ name
                                +:+ ": " +:+ err)
                end in
              match hasValue, rest with
              | Some value, _ => set value rest
              | None, value :: rest' => set value rest'
              | None, [] => ParseError ("flag needs an argument: -" +:+ name)
              end
          end
      end
  end.

(** ** [filepath.Base] (Unix) *)

Definition is_separator (c : Ascii.ascii) : bool := Ascii.eqb c "/"%char.

Fixpoint drop_while {A : Type} (f : A -> bool) (l : list A) : list A :=
  match l with
  | [] => []
  | x :: r => if f x then drop_while f r else l
  end.

Fixpoint take_while {A : Type} (f : A -> bool) (l : list A) : list A :=
  match l with
  | [] => []
  | x :: r => if f x then x :: take_while f r else []
  end.

Definition filepath_Base (path : string) : string :=
  match path with
  | EmptyString => "."
  | _ =>
      (* trailing separators stripped, on the reversed path *)
      let stripped := drop_while is_separator (reverse (String.list_ascii_of_string path)) in
      (* the last element *)
      let last := take_while (fun c => negb (is_separator c)) stripped in
      match last with
      | [] => "/"                             (* it had only separators *)
      | _ => String.string_of_list_ascii (reverse last)
      end
  end.

(** ** [main] *)

Definition defaults : Config :=
  {| InterpreterName := "jsonnet"; In := "-"; Outs := [] |}.

(** [cfg.Outs = append(cfg.Outs, "-")] when no [-out] was given. *)
Definition default_outs (cfg : Config) : Config :=
  if (length (Outs cfg) =? 0)%nat
  then {| InterpreterName := InterpreterName cfg; In := In cfg; Outs := Outs cfg ++ ["-"] |}
  else cfg.

(** [if err := run(...); err != nil { fmt.Fprintln(os.Stderr, err); os.Exit(1) }] *)
Definition report (err : option error) : Prog Z :=
  match err with
  | Some err =>
      _ ← call (fmt_Fprintln_Stderr err);
      mret 1
  | None => mret 0
  end.

Section Main.

Variable interpreter_Get : string -> option Interpreter.

(** [program] is [os.Args[0]], [arguments] is [os.Args[1:]]; the result is
    the exit status of the process.  [flag.CommandLine] exits with status 0
    after [-h]/[-help] and with status 2 after any other parse error, having
    printed the message and the usage. *)
Definition main (program : string) (arguments : list string) : Prog Z :=
  match flag_Parse arguments defaults [] with
  | ErrHelp =>
      _ ← call (flag_Usage (filepath_Base program));
      mret 0
  | ParseError msg =>
      _ ← call (fmt_Fprintln_Stderr msg);
      _ ← call (flag_Usage (filepath_Base program));
      mret 2
  | Parsed cfg _ args =>
      let cfg := default_outs cfg in
      err ← run interpreter_Get (InterpreterName cfg) (In cfg) (Outs cfg) args;
      report err
  end.

End Main.

(** ** The volume collector

    Modelled from the spec: the package [internal] (the Volume Collector
    and [Generate]) is not part of the sources at hand.  A volume path
    resolves to a File Entry (a regular file) or to a Directory Entry, whose
    direct children are regular files or sub-directories. *)

Inductive Child :=
| RegularFile (content : string)
| SubDirectory.

Inductive Node :=
| NodeFile (content : string)
| NodeDir (children : list (string * Child)).

(** Modelled from the spec: the direct entries of a directory; "for every
    entry that is itself a regular file, read and insert (entryName →
    content)"; "entries that are subdirectories are silently skipped". *)
Fixpoint collect_dir (children : list (string * Child)) (vars : gmap string string)
    : gmap string string :=
  match children with
  | [] => vars
  | (entryName, RegularFile content) :: rest =>
      collect_dir rest (<[entryName := content]> vars)
  | (_, SubDirectory) :: rest => collect_dir rest vars
  end.

(** Modelled from the spec: "for each path in the given order", stat the
    path; fail immediately if it does not exist; a regular file inserts
    (baseName(path) → content), "overwriting any prior entry with the same
    key"; a directory inserts its direct regular files. *)
Fixpoint collect_from (fs : gmap string Node) (paths : list string)
    (vars : gmap string string) : gmap string string + error :=
  match paths with
  | [] => inl vars
  | path :: rest =>
      match fs !! path with
      | None => inr ("stat " +:+ path +:+ ": no such file or directory")
      | Some (NodeFile content) =>
          collect_from fs rest (<[filepath_Base path := content]> vars)
      | Some (NodeDir children) =>
          collect_from fs rest (collect_dir children vars)
      end
  end.

(** Modelled from the spec: [Collect(paths) (Mapping, error)]. *)
Definition Collect (fs : gmap string Node) (paths : list string)
    : gmap string string + error :=
  collect_from fs paths ∅.

(** The File Entries a volume path resolves to, in listing order (§3 of
    the specification), and the ones a list of paths goes through. *)
Definition regular_files (children : list (string * Child)) : list (string * string) :=
  omap (fun '(name, c) => match c with
                          | RegularFile content => Some (name, content)
                          | SubDirectory => None
                          end) children.

Definition file_entries (fs : gmap string Node) (path : string) : list (string * string) :=
  match fs !! path with
  | None => []
  | Some (NodeFile content) => [(filepath_Base path, content)]
  | Some (NodeDir children) => regular_files children
  end.

Definition encountered (fs : gmap string Node) (paths : list string)
    : list (string * string) :=
  concat (file_entries fs <$> paths).

(** The value of the last entry named [name]. *)
Fixpoint last_value (name : string) (entries : list (string * string)) : option string :=
  match entries with
  | [] => None
  | (n, v) :: rest =>
      match last_value name rest with
      | Some v' => Some v'
      | None => if decide (n = name) then Some v else None
      end
  end.

(** ** A reference environment

    Modelled from the spec: the packages [internal], [internal/file] and
    [internal/interpreter] are not part of the sources at hand, and the
    operating system is outside the program.  The environment below answers
    the calls of [run] the way the specification describes them: a registry
    with the two names "plain" and "jsonnet"; "-" for the standard streams;
    an output path that is "created or overwritten" when it is opened;
    [Generate] reading the whole input, collecting the volumes and
    rendering.  The theorems about [run] hold for every environment; this
    one gives them concrete runs. *)

(** Modelled from the spec: "fixed, process-wide table populated at startup
    with two entries: "plain" and "jsonnet"", "case-sensitive". *)
Definition interpreter_Get (name : string) : option Interpreter :=
  if String.eqb name "plain" then Some Plain
  else if String.eqb name "jsonnet" then Some Jsonnet
  else None.

Inductive Stream :=
| Stdin
| Stdout
| OnDisk (path : string) (offset : nat).

Record World := {
  disk : gmap string Node;
  stdin : string;
  stdout : string;
  descriptors : gmap File Stream;
  next_descriptor : File;
}.

Definition os_Stdin : File := 0%nat.
Definition os_Stdout : File := 1%nat.

Definition string_drop (n : nat) (s : string) : string :=
  String.substring n (String.length s - n) s.

(** Writing [content] at [offset] of a file holding [old]. *)
Definition write_at (offset : nat) (content old : string) : string :=
  String.substring 0 offset old +:+ content
  +:+ string_drop (offset + String.length content) old.

Definition open_descriptor (s : Stream) (w : World) : File * World :=
  (next_descriptor w,
   {| disk := disk w; stdin := stdin w; stdout := stdout w;
      descriptors := <[next_descriptor w := s]> (descriptors w);
      next_descriptor := S (next_descriptor w) |}).

Definition set_disk (d : gmap string Node) (w : World) : World :=
  {| disk := d; stdin := stdin w; stdout := stdout w;
     descriptors := descriptors w; next_descriptor := next_descriptor w |}.

(** Modelled from the spec: "-in=<path>|-", "-" meaning standard input. *)
Definition ref_OpenInput (path : string) (w : World) : (File + error) * World :=
  if String.eqb path "-" then (inl os_Stdin, w)
  else match disk w !! path with
       | None => (inr ("open " +:+ path +:+ ": no such file or directory"), w)
       | Some _ => let '(f, w') := open_descriptor (OnDisk path 0) w in (inl f, w')
       end.

(** Modelled from the spec: "-out=<path>|-", "-" meaning standard output;
    an output file is "created or overwritten". *)
Definition ref_OpenOutput (path : string) (w : World) : (File + error) * World :=
  if String.eqb path "-" then (inl os_Stdout, w)
  else match disk w !! path with
       | Some (NodeDir _) => (inr ("open " +:+ path +:+ ": is a directory"), w)
       | _ =>
           let '(f, w') := open_descriptor (OnDisk path 0)
                             (set_disk (<[path := NodeFile ""]> (disk w)) w) in
           (inl f, w')
       end.

Definition read_all (input : File) (w : World) : string + error :=
  match descriptors w !! input with
  | Some Stdin => inl (stdin w)
  | Some (OnDisk path offset) =>
      match disk w !! path with
      | Some (NodeFile content) => inl (string_drop offset content)
      | Some (NodeDir _) => inr ("read " +:+ path +:+ ": is a directory")
      | None => inr ("read " +:+ path +:+ ": no such file or directory")
      end
  | _ => inr "read: bad file descriptor"
  end.

Definition ref_Fprint (o : option File) (content : string) (w : World)
    : (Z * option error) * World :=
  match o with
  | None => ((0, Some "invalid argument"), w)
  | Some f =>
      match descriptors w !! f with
      | Some Stdout =>
          ((Z.of_nat (String.length content), None),
           {| disk := disk w; stdin := stdin w; stdout := stdout w +:+ content;
              descriptors := descriptors w; next_descriptor := next_descriptor w |})
      | Some (OnDisk path offset) =>
          match disk w !! path with
          | Some (NodeFile old) =>
              ((Z.of_nat (String.length content), None),
               {| disk := <[path := NodeFile (write_at offset content old)]> (disk w);
                  stdin := stdin w; stdout := stdout w;
                  descriptors :=
                    <[f := OnDisk path (offset + String.length content)]> (descriptors w);
                  next_descriptor := next_descriptor w |})
          | _ => ((0, Some ("write " +:+ path +:+ ": is a directory")), w)
          end
      | Some Stdin => ((0, Some "write /dev/stdin: bad file descriptor"), w)
      | None => ((0, Some "write: file already closed"), w)
      end
  end.

Definition ref_Close (f : File) (w : World) : option error * World :=
  match descriptors w !! f with
  | None => (Some "close: file already closed", w)
  | Some _ =>
      (None,
       {| disk := disk w; stdin := stdin w; stdout := stdout w;
          descriptors := delete f (descriptors w); next_descriptor := next_descriptor w |})
  end.

Section Reference.

(** [Interpreter.Render]: the template engines are outside the program. *)
Variable Render : Interpreter -> string -> gmap string string -> string + error.

(** Modelled from the spec: [Generate] reads the entire input stream,
    invokes the collector on the volumes, renders, and propagates any
    failure "wrapped with context". *)
Definition ref_Generate (runtime : Interpreter) (input : File) (volumes : list string)
    (w : World) : string + error :=
  match read_all input w with
  | inr err => inr ("can't read input: " +:+ err)
  | inl source =>
      match Collect (disk w) volumes with
      | inr err => inr ("can't collect variables: " +:+ err)
      | inl vars =>
          match Render runtime source vars with
          | inr err => inr ("can't render template: " +:+ err)
          | inl content => inl content
          end
      end
  end.

Definition reference : Env World := fun R c =>
  match c in Call R return World -> R * World with
  | file_OpenInput path => ref_OpenInput path
  | internal_Generate runtime input volumes =>
      fun w => (ref_Generate runtime input volumes w, w)
  | file_OpenOutput path => ref_OpenOutput path
  | fmt_Fprint o content => ref_Fprint o content
  | File_Close f => ref_Close f
  | fmt_Fprintln_Stderr _ => fun w => (tt, w)
  | flag_Usage _ => fun w => (tt, w)
  end.

End Reference.

(** An environment whose every [Fprint] fails and writes nothing. *)
Definition failing_writes {W : Type} (env : Env W) : Env W := fun R c =>
  match c in Call R return W -> R * W with
  | fmt_Fprint _ _ => fun w => ((0, Some "write: no space left on device"), w)
  | c' => env _ c'
  end.

(** A renderer for the concrete runs: a template without any action
    renders to itself. *)
Definition literal_Render (runtime : Interpreter) (source : string)
    (vars : gmap string string) : string + error :=
  inl source.

Definition boot (d : gmap string Node) (input : string) : World :=
  {| disk := d; stdin := input; stdout := "";
     descriptors := {[ os_Stdin := Stdin; os_Stdout := Stdout ]};
     next_descriptor := 3%nat |}.

(** ** Observations on a run *)

Definition result_of {A W : Type} (r : A * W * list Event) : A := r.1.1.
Definition world_of {A W : Type} (r : A * W * list Event) : W := r.1.2.
Definition trace_of {A W : Type} (r : A * W * list Event) : list Event := r.2.

(** The output destinations a trace opens, with the answers. *)
Definition opened (tr : list Event) : list (string * (File + error)) :=
  omap (fun e => match e with EvOpenOutput p r => Some (p, r) | _ => None end) tr.

(** The writes of a trace: destination and content. *)
Definition written (tr : list Event) : list (option File * string) :=
  omap (fun e => match e with EvFprint o c _ => Some (o, c) | _ => None end) tr.

(** The write failures of a trace. *)
Definition write_errors (tr : list Event) : list error :=
  omap (fun e => match e with EvFprint _ _ (_, Some err) => Some err | _ => None end) tr.

(** The files a trace closes. *)
Definition closed (tr : list Event) : list File :=
  omap (fun e => match e with EvClose f _ => Some f | _ => None end) tr.

(** What [Generate] answered. *)
Definition generated (tr : list Event) : list (string + error) :=
  omap (fun e => match e with EvGenerate _ _ _ r => Some r | _ => None end) tr.

(** No lookup, open or generation of the trace failed; writes and closes
    are not looked at. *)
Definition step_succeeded (e : Event) : bool :=
  match e with
  | EvOpenInput _ (inr _) | EvGenerate _ _ _ (inr _) | EvOpenOutput _ (inr _) => false
  | _ => true
  end.

(** The opens of [paths] that answered the files [hs]. *)
Definition opens_ok (paths : list string) (hs : list File) : list Event :=
  zip_with (fun p h => EvOpenOutput p (inl h)) paths hs.

(** The deferred closes of [fs] with their answers [rs], and the writes of
    [content] to [os] with their answers [rs]. *)
Definition closes (fs : list File) (rs : list (option error)) : list Event :=
  zip_with EvClose fs rs.

Definition writes (content : string) (os : list (option File))
    (rs : list (Z * option error)) : list Event :=
  zip_with (fun o r => EvFprint o content r) os rs.

Definition open_error (path : string) (err : error) : error :=
  "can't open output file '" +:+ path +:+ "': " +:+ err.

(** The five ways [run] can go, each with the error returned and the calls
    made. *)
Inductive run_behaviour (Get : string -> option Interpreter)
    (interpreterName inputPath : string) (outputPaths volumes : list string)
    : option error -> list Event -> Prop :=
| run_unsupported :
    Get interpreterName = None ->
    run_behaviour Get interpreterName inputPath outputPaths volumes
      (Some ("unsupported interpreter '" +:+ interpreterName +:+ "'")) []
| run_no_input runtime err :
    Get interpreterName = Some runtime ->
    run_behaviour Get interpreterName inputPath outputPaths volumes
      (Some ("can't open input file '" +:+ inputPath +:+ "': " +:+ err))
      [EvOpenInput inputPath (inr err)]
| run_no_content runtime input err r :
    Get interpreterName = Some runtime ->
    run_behaviour Get interpreterName inputPath outputPaths volumes
      (Some ("can't generate content: " +:+ err))
      [EvOpenInput inputPath (inl input);
       EvGenerate runtime input volumes (inr err);
       EvClose input r]
| run_no_output runtime input content before p after hs err rc :
    Get interpreterName = Some runtime ->
    outputPaths = before ++ p :: after ->
    length hs = length before ->
    length rc = S (length hs) ->
    run_behaviour Get interpreterName inputPath outputPaths volumes
      (Some (open_error p err))
      ([EvOpenInput inputPath (inl input);
        EvGenerate runtime input volumes (inl content)]
       ++ opens_ok before hs ++ [EvOpenOutput p (inr err)]
       ++ closes (reverse hs ++ [input]) rc)
| run_done runtime input content hs rw rc :
    Get interpreterName = Some runtime ->
    length hs = length outputPaths ->
    length rw = length hs ->
    length rc = S (length hs) ->
    run_behaviour Get interpreterName inputPath outputPaths volumes
      None
      ([EvOpenInput inputPath (inl input);
        EvGenerate runtime input volumes (inl content)]
       ++ opens_ok outputPaths hs
       ++ writes content (Some <$> hs) rw
       ++ closes (reverse hs ++ [input]) rc).

(** What [main] can do: the exit status and the calls made. *)
Inductive main_behaviour (Get : string -> option Interpreter)
    (program : string) (arguments : list string) : Z -> list Event -> Prop :=
| main_help :
    flag_Parse arguments defaults [] = ErrHelp ->
    main_behaviour Get program arguments 0 [EvUsage (filepath_Base program)]
| main_bad_flags msg :
    flag_Parse arguments defaults [] = ParseError msg ->
    main_behaviour Get program arguments 2
      [EvStderr msg; EvUsage (filepath_Base program)]
| main_failed cfg actual args err tr :
    flag_Parse arguments defaults [] = Parsed cfg actual args ->
    run_behaviour Get (InterpreterName (default_outs cfg)) (In (default_outs cfg))
      (Outs (default_outs cfg)) args (Some err) tr ->
    main_behaviour Get program arguments 1 (tr ++ [EvStderr err])
| main_ok cfg actual args tr :
    flag_Parse arguments defaults [] = Parsed cfg actual args ->
    run_behaviour Get (InterpreterName (default_outs cfg)) (In (default_outs cfg))
      (Outs (default_outs cfg)) args None tr ->
    main_behaviour Get program arguments 0 tr.

(** The two ways of writing one [-out] flag on the command line:
    [-out=value] and [-out value]. *)
Definition out_arguments (flag : bool * string) : list string :=
  if flag.1 then ["-out=" +:+ flag.2] else ["-out"; flag.2].

(** Arguments at which [FlagSet.Parse] stops without consuming anything:
    none at all, or a first one that is not a flag. *)
Definition positional (args : list string) : Prop :=
  match args with
  | [] => True
  | s :: _ => parse_arg s = NonFlag
  end.

(** The environment, in state [w], answers the call of event [e] as the
    event records and moves to [w']. *)
Definition answers {W : Type} (env : Env W) (e : Event) (w w' : W) : Prop :=
  match e with
  | EvOpenInput path r => env _ (file_OpenInput path) w = (r, w')
  | EvGenerate runtime input volumes r =>
      env _ (internal_Generate runtime input volumes) w = (r, w')
  | EvOpenOutput path r => env _ (file_OpenOutput path) w = (r, w')
  | EvFprint o content r => env _ (fmt_Fprint o content) w = (r, w')
  | EvClose f r => env _ (File_Close f) w = (r, w')
  | EvStderr msg => env _ (fmt_Fprintln_Stderr msg) w = (tt, w')
  | EvUsage program => env _ (flag_Usage program) w = (tt, w')
  end.

(** The world [w'] is reached from [w] by making the calls of the trace,
    one after the other, each answered as recorded. *)
Fixpoint replays {W : Type} (env : Env W) (w : W) (tr : list Event) (w' : W) : Prop :=
  match tr with
  | [] => w' = w
  | e :: tr => exists w1, answers env e w w1 /\ replays env w1 tr w'
  end.

(** ** Further observations on a run *)

(** The input opens of a trace, with the answers. *)
Definition input_opens (tr : list Event) : list (string * (File + error)) :=
  omap (fun e => match e with EvOpenInput p r => Some (p, r) | _ => None end) tr.

(** The files a trace obtains: every successful open, input or output. *)
Definition acquired (tr : list Event) : list File :=
  omap (fun e => match e with
                 | EvOpenInput _ (inl f) | EvOpenOutput _ (inl f) => Some f
                 | _ => None
                 end) tr.

(** The calls of [Generate], with their arguments. *)
Definition generate_calls (tr : list Event) : list (Interpreter * File * list string) :=
  omap (fun e => match e with
                 | EvGenerate runtime input volumes _ => Some (runtime, input, volumes)
                 | _ => None
                 end) tr.

(** The stages of [run]: obtaining (opening and generating), writing,
    releasing; reporting belongs to [main]. *)
Definition phase (e : Event) : nat :=
  match e with
  | EvOpenInput _ _ | EvGenerate _ _ _ _ | EvOpenOutput _ _ => 0
  | EvFprint _ _ _ => 1
  | EvClose _ _ => 2
  | EvStderr _ | EvUsage _ => 3
  end.

(** ** Command lines made of flags of this program *)

#[export] Instance Flag_eq_dec : EqDecision Flag.
Proof. solve_decision. Defined.

(** The name under which [main] registers a flag. *)
Definition flag_text (f : Flag) : string :=
  match f with
  | interpreter_flag => "interpreter"
  | in_flag => "in"
  | out_flag => "out"
  end.

(** One flag with its value, written [-name=value] or [-name value]. *)
Definition setting_arguments (s : Flag * bool * string) : list string :=
  let '(f, joined, value) := s in
  if joined then ["-" +:+ flag_text f +:+ "=" +:+ value]
  else ["-" +:+ flag_text f; value].

(** The values given to flag [f], in the order of the command line. *)
Definition values_of (f : Flag) (settings : list (Flag * bool * string)) : list string :=
  omap (fun '(g, _, value) => if decide (g = f) then Some value else None) settings.

(** Whether a string has a path separator in it. *)
Definition has_separator (s : string) : bool :=
  existsb is_separator (String.list_ascii_of_string s).

(** * Properties *)

(** ** Executing programs *)

Lemma exec_bind {W A B : Type} (env : Env W) (p : Prog A) (f : A -> Prog B) (w : W) :
  exec env (bind p f) w =
  let '(a, w1, t1) := exec env p w in
  let '(b, w2, t2) := exec env (f a) w1 in
  (b, w2, t1 ++ t2).
Proof.
  revert w. induction p as [a | R c k IH]; intros w; simpl.
  - destruct (exec env (f a) w) as [[b w2] t2]. reflexivity.
  - destruct (env R c w) as [r w1]. rewrite IH.
    destruct (exec env (k r) w1) as [[a w2] t1].
    destruct (exec env (f a) w2) as [[b w3] t2]. reflexivity.
Qed.

Lemma exec_mbind {W A B : Type} (env : Env W) (p : Prog A) (f : A -> Prog B) (w : W) :
  exec env (p ≫= f) w =
  let '(a, w1, t1) := exec env p w in
  let '(b, w2, t2) := exec env (f a) w1 in
  (b, w2, t1 ++ t2).
Proof. apply exec_bind. Qed.

Lemma exec_call_bind {W R B : Type} (env : Env W) (c : Call R) (f : R -> Prog B) (w : W) :
  exec env (call c ≫= f) w =
  let '(r, w1) := env _ c w in
  let '(b, w2, t) := exec env (f r) w1 in
  (b, w2, event c r :: t).
Proof. reflexivity. Qed.

Lemma exec_mret {W A : Type} (env : Env W) (a : A) (w : W) :
  exec env (mret a) w = (a, w, []).
Proof. reflexivity. Qed.

(** ** The loops of [run] *)

Lemma insert_next {A : Type} (prev : list A) (x y : A) (rest : list A) :
  <[length prev := x]> (prev ++ y :: rest) = (prev ++ [x]) ++ rest.
Proof.
  rewrite <- (Nat.add_0_r (length prev)), insert_app_r. simpl.
  by rewrite <- app_assoc.
Qed.

Lemma fill_next (prev : list File) (h : File) (n : nat) :
  <[length prev := Some h]> ((Some <$> prev) ++ None :: replicate n None)
  = (Some <$> (prev ++ [h])) ++ replicate n None.
Proof.
  rewrite fmap_app. simpl.
  rewrite <- (length_fmap (@Some File) prev) at 1. apply insert_next.
Qed.

Lemma exec_open_outputs {W : Type} (env : Env W) (paths : list string) :
  forall (prev defers : list File) (w : W) res w' tr,
    exec env (open_outputs (length prev) paths
                ((Some <$> prev) ++ replicate (length paths) None) defers) w
    = (res, w', tr) ->
    (exists hs, length hs = length paths
       /\ res = (reverse hs ++ defers, inr (Some <$> (prev ++ hs)))
       /\ tr = opens_ok paths hs)
    \/ (exists before p after hs err,
          paths = before ++ p :: after
          /\ length hs = length before
          /\ res = (reverse hs ++ defers, inl (open_error p err))
          /\ tr = opens_ok before hs ++ [EvOpenOutput p (inr err)]).
Proof.
  induction paths as [| p paths IH]; intros prev defers w res w' tr H.
  - simpl in H. injection H as <- _ <-. left. exists []. by rewrite !app_nil_r.
  - cbn [open_outputs] in H. rewrite exec_call_bind in H.
    destruct (env _ _ w) as [[h | err] w1].
    + cbn [replicate length] in H. rewrite fill_next in H.
      replace (S (length prev)) with (length (prev ++ [h])) in H
        by (rewrite length_app; simpl; lia).
      destruct (exec env _ w1) as [[res1 w2] tr1] eqn:E.
      injection H as <- _ <-.
      apply IH in E as [(hs & Hlen & -> & ->)
                       | (before & q & after & hs & err & -> & Hlen & -> & ->)].
      * left. exists (h :: hs). simpl. rewrite reverse_cons, <- !app_assoc.
        split; [lia | done].
      * right. exists (p :: before), q, after, (h :: hs), err. simpl.
        rewrite reverse_cons, <- !app_assoc. split; [done | split; [lia | done]].
    + simpl in H. injection H as <- _ <-. right.
      exists [], p, paths, [], err. done.
Qed.

Lemma exec_write_outputs {W : Type} (env : Env W) (content : string)
    (outputs : list (option File)) :
  forall (w : W), exists w' rs,
    exec env (write_outputs outputs content) w = (tt, w', writes content outputs rs)
    /\ length rs = length outputs.
Proof.
  induction outputs as [| o outputs IH]; intros w.
  - by exists w, [].
  - cbn [write_outputs]. rewrite exec_call_bind.
    destruct (env _ _ w) as [r w1].
    destruct (IH w1) as (w2 & rs & -> & Hlen).
    exists w2, (r :: rs). simpl. by rewrite Hlen.
Qed.

Lemma exec_run_deferred {W : Type} (env : Env W) (defers : list File) :
  forall (w : W), exists w' rs,
    exec env (run_deferred defers) w = (tt, w', closes defers rs)
    /\ length rs = length defers.
Proof.
  induction defers as [| f defers IH]; intros w.
  - by exists w, [].
  - cbn [run_deferred]. rewrite exec_call_bind.
    destruct (env _ _ w) as [r w1].
    destruct (IH w1) as (w2 & rs & -> & Hlen).
    exists w2, (r :: rs). simpl. by rewrite Hlen.
Qed.

(** ** Every run of [run] is one of the five behaviours *)

Lemma run_behaves {W : Type} (env : Env W) (Get : string -> option Interpreter)
    (interpreterName inputPath : string) (outputPaths volumes : list string) (w : W) :
  run_behaviour Get interpreterName inputPath outputPaths volumes
    (result_of (exec env (run Get interpreterName inputPath outputPaths volumes) w))
    (trace_of (exec env (run Get interpreterName inputPath outputPaths volumes) w)).
Proof.
  unfold run. rewrite exec_mbind.
  destruct (exec env (run_body _ _ _ _ _) w) as [[[defers err] w1] t1] eqn:Eb.
  rewrite exec_mbind.
  destruct (exec_run_deferred env defers w1) as (w2 & rc & -> & Hc).
  rewrite exec_mret. unfold result_of, trace_of. cbn [fst snd]. rewrite app_nil_r.
  unfold run_body in Eb.
  destruct (Get interpreterName) as [runtime |] eqn:EG.
  2:{ rewrite exec_mret in Eb. injection Eb as <- <- _ <-.
      by constructor. }
  rewrite exec_call_bind in Eb.
  destruct (env _ _ w) as [[input | e] wi].
  2:{ rewrite exec_mret in Eb. injection Eb as <- <- _ <-.
      by econstructor. }
  cbv zeta in Eb. rewrite exec_call_bind in Eb.
  destruct (env _ _ wi) as [[content | e] wg].
  2:{ rewrite exec_mret in Eb. injection Eb as <- <- _ <-.
      destruct rc as [| r [| ? ?]]; try discriminate. by econstructor. }
  rewrite exec_mbind in Eb.
  destruct (exec env _ wg) as [[ro wo] to] eqn:Eo.
  apply (exec_open_outputs env outputPaths [] [input]) in Eo
    as [(hs & Hlen & -> & ->)
       | (before & p & after & hs & e & Hpaths & Hlen & -> & ->)].
  - rewrite exec_mbind in Eb.
    destruct (exec_write_outputs env content (Some <$> ([] ++ hs)) wo)
      as (ww & rw & Ew & Hw).
    rewrite Ew, exec_mret in Eb. injection Eb as <- <- _ <-.
    simpl. rewrite app_nil_r, <- !app_assoc.
    apply (run_done Get interpreterName inputPath outputPaths volumes
             runtime input content hs rw rc); [done | done | |].
    + by rewrite Hw, length_fmap.
    + rewrite Hc, length_app, length_reverse. simpl. lia.
  - rewrite exec_mret in Eb. injection Eb as <- <- _ <-.
    simpl. rewrite app_nil_r, <- !app_assoc.
    apply (run_no_output Get interpreterName inputPath outputPaths volumes
             runtime input content before p after hs e rc); [done | done | done |].
    rewrite Hc, length_app, length_reverse. simpl. lia.
Qed.

Lemma main_behaves {W : Type} (env : Env W) (Get : string -> option Interpreter)
    (program : string) (arguments : list string) (w : W) :
  main_behaviour Get program arguments
    (result_of (exec env (main Get program arguments) w))
    (trace_of (exec env (main Get program arguments) w)).
Proof.
  unfold main.
  destruct (flag_Parse arguments defaults []) as [cfg actual args | | msg] eqn:EP.
  - rewrite exec_mbind.
    pose proof (run_behaves env Get (InterpreterName (default_outs cfg))
                  (In (default_outs cfg)) (Outs (default_outs cfg)) args w) as Hrun.
    destruct (exec env (run _ _ _ _ _) w) as [[err w1] tr].
    unfold result_of, trace_of in Hrun. cbn [fst snd] in Hrun.
    destruct err as [err |]; unfold report.
    + rewrite exec_call_bind. destruct (env _ _ w1) as [[] w2]. rewrite exec_mret.
      by eapply main_failed.
    + rewrite exec_mret, app_nil_r. by eapply main_ok.
  - rewrite exec_call_bind. destruct (env _ _ w) as [[] w1]. by constructor.
  - rewrite exec_call_bind. destruct (env _ _ w) as [[] w1].
    rewrite exec_call_bind. destruct (env _ _ w1) as [[] w2]. by constructor.
Qed.

(** ** Reading traces *)

Lemma omap_zip_with_none {A B C : Type} (f : Event -> option C) (g : A -> B -> Event)
    (l : list A) (k : list B) :
  (forall a b, f (g a b) = None) -> omap f (zip_with g l k) = [].
Proof.
  intros Hf. revert k. induction l as [| a l IH]; intros [| b k]; simpl; try done.
  by rewrite Hf.
Qed.

Lemma omap_zip_with_some {A B C : Type} (f : Event -> option C) (g : A -> B -> Event)
    (h : A -> B -> C) (l : list A) (k : list B) :
  (forall a b, f (g a b) = Some (h a b)) -> omap f (zip_with g l k) = zip_with h l k.
Proof.
  intros Hf. revert k. induction l as [| a l IH]; intros [| b k]; simpl; try done.
  by rewrite Hf, IH.
Qed.

Lemma zip_with_left {A B C : Type} (g : A -> C) (l : list A) (k : list B) :
  length k = length l -> zip_with (fun a _ => g a) l k = g <$> l.
Proof.
  revert k. induction l as [| a l IH]; intros [| b k] Hlen; simpl in *; try done.
  f_equal. apply IH. lia.
Qed.

Lemma opened_app a b : opened (a ++ b) = opened a ++ opened b.
Proof. apply omap_app. Qed.
Lemma written_app a b : written (a ++ b) = written a ++ written b.
Proof. apply omap_app. Qed.
Lemma closed_app a b : closed (a ++ b) = closed a ++ closed b.
Proof. apply omap_app. Qed.
Lemma generated_app a b : generated (a ++ b) = generated a ++ generated b.
Proof. apply omap_app. Qed.
Lemma write_errors_app a b : write_errors (a ++ b) = write_errors a ++ write_errors b.
Proof. apply omap_app. Qed.

Lemma opened_opens_ok paths hs :
  opened (opens_ok paths hs) = zip_with (fun p h => (p, inl h)) paths hs.
Proof. by apply omap_zip_with_some. Qed.
Lemma opened_writes c os rs : opened (writes c os rs) = [].
Proof. by apply omap_zip_with_none. Qed.
Lemma opened_closes fs rs : opened (closes fs rs) = [].
Proof. by apply omap_zip_with_none. Qed.

Lemma written_opens_ok paths hs : written (opens_ok paths hs) = [].
Proof. by apply omap_zip_with_none. Qed.
Lemma written_writes c os rs :
  length rs = length os -> written (writes c os rs) = (fun o => (o, c)) <$> os.
Proof.
  intros Hlen. unfold written, writes.
  rewrite (omap_zip_with_some _ _ (fun o _ => (o, c))) by done.
  by apply zip_with_left.
Qed.
Lemma written_closes fs rs : written (closes fs rs) = [].
Proof. by apply omap_zip_with_none. Qed.

Lemma closed_opens_ok paths hs : closed (opens_ok paths hs) = [].
Proof. by apply omap_zip_with_none. Qed.
Lemma closed_writes c os rs : closed (writes c os rs) = [].
Proof. by apply omap_zip_with_none. Qed.
Lemma closed_closes fs rs : length rs = length fs -> closed (closes fs rs) = fs.
Proof.
  intros Hlen. unfold closed, closes.
  rewrite (omap_zip_with_some _ _ (fun f _ => f)) by done.
  rewrite (zip_with_left id) by done. apply list_fmap_id.
Qed.

Lemma generated_opens_ok paths hs : generated (opens_ok paths hs) = [].
Proof. by apply omap_zip_with_none. Qed.
Lemma generated_writes c os rs : generated (writes c os rs) = [].
Proof. by apply omap_zip_with_none. Qed.
Lemma generated_closes fs rs : generated (closes fs rs) = [].
Proof. by apply omap_zip_with_none. Qed.

Lemma write_errors_opens_ok paths hs : write_errors (opens_ok paths hs) = [].
Proof. by apply omap_zip_with_none. Qed.
Lemma write_errors_closes fs rs : write_errors (closes fs rs) = [].
Proof. by apply omap_zip_with_none. Qed.

Lemma forallb_opens_ok paths hs : forallb step_succeeded (opens_ok paths hs) = true.
Proof.
  revert hs. induction paths as [| p paths IH]; intros [| h hs]; simpl; auto.
Qed.

Create Rewrite HintDb trace.
#[export] Hint Rewrite opened_app written_app closed_app generated_app write_errors_app
  opened_opens_ok opened_writes opened_closes
  written_opens_ok written_closes
  closed_opens_ok closed_writes
  generated_opens_ok generated_writes generated_closes
  write_errors_opens_ok write_errors_closes : trace.
#[export] Hint Rewrite written_writes closed_closes
  using (rewrite ?length_fmap, ?length_app, ?length_reverse; simpl; lia) : trace.

Ltac observe := autorewrite with trace; simpl.
Ltac observe_in H := revert H; observe; intros H.

(** Membership in a list that is written out. *)
Ltac members H :=
  repeat match type of H with
         | _ ∈ [] => by apply elem_of_nil in H
         | _ ∈ _ :: _ => apply elem_of_cons in H as [H | H]
         end.

(** ** Failures before the outputs *)

Lemma run_generation_failure Get name inputPath outputPaths volumes err res tr :
  run_behaviour Get name inputPath outputPaths volumes res tr ->
  inr err ∈ generated tr ->
  res = Some ("can't generate content: " +:+ err) /\ opened tr = [] /\ written tr = [].
Proof.
  intros Hb Hin.
  inversion Hb; subst; observe_in Hin; observe; members Hin;
    try discriminate Hin.
  by injection Hin as ->.
Qed.

(** C1: when generation fails ([Generate] answers with an error, whether the
    volume collection or the rendering failed), [run] returns the error
    "can't generate content: ..." and the process prints it and exits with
    status 1; no output destination has been opened and nothing has been
    written, so no output file is created or overwritten. *)
Theorem generation_failure_opens_no_output {W : Type} (env : Env W)
    (Get : string -> option Interpreter) (name inputPath : string)
    (outputPaths volumes : list string) (program : string) (arguments : list string)
    (w : W) (err : error) :
  let r := exec env (run Get name inputPath outputPaths volumes) w in
  let m := exec env (main Get program arguments) w in
  (inr err ∈ generated (trace_of r) ->
     result_of r = Some ("can't generate content: " +:+ err)
     /\ opened (trace_of r) = [] /\ written (trace_of r) = [])
  /\ (inr err ∈ generated (trace_of m) ->
       result_of m = 1
       /\ last (trace_of m) = Some (EvStderr ("can't generate content: " +:+ err))
       /\ opened (trace_of m) = [] /\ written (trace_of m) = []).
Proof.
  intros r m. split; intros Hin.
  - by eapply run_generation_failure; [apply run_behaves |].
  - pose proof (main_behaves env Get program arguments w) as Hm. fold m in Hm.
    destruct Hm as [Hp | msg Hp | cfg actual args e tr Hp Hb | cfg actual args tr Hp Hb];
      observe_in Hin; members Hin.
    + rewrite app_nil_r in Hin.
      destruct (run_generation_failure _ _ _ _ _ _ _ _ Hb Hin) as (He & Ho & Hw).
      injection He as ->. observe. rewrite Ho, Hw, last_snoc. done.
    + by destruct (run_generation_failure _ _ _ _ _ _ _ _ Hb Hin) as (He & _).
Qed.

(** A run whose only volume path does not exist, in the reference
    environment. *)
Lemma generation_failure_opens_no_output_witness :
  let err := "can't collect variables: stat /missing: no such file or directory" in
  let r := exec (reference literal_Render)
             (run interpreter_Get "plain" "-" ["out.json"] ["/missing"]) (boot ∅ "{}") in
  let m := exec (reference literal_Render)
             (main interpreter_Get "cfgenerator" ["-out"; "out.json"; "/missing"])
             (boot ∅ "{}") in
  (result_of r = Some ("can't generate content: " +:+ err)
   /\ opened (trace_of r) = [] /\ written (trace_of r) = [])
  /\ (result_of m = 1
      /\ last (trace_of m) = Some (EvStderr ("can't generate content: " +:+ err))
      /\ opened (trace_of m) = [] /\ written (trace_of m) = []).
Proof.
  intros err r m.
  destruct (generation_failure_opens_no_output (reference literal_Render)
              interpreter_Get "plain" "-" ["out.json"] ["/missing"]
              "cfgenerator" ["-out"; "out.json"; "/missing"] (boot ∅ "{}") err)
    as [Hr Hm].
  split; [apply Hr | apply Hm]; vm_compute; constructor.
Defined.

(** C3: for a name the registry does not know, [run] returns the error
    "unsupported interpreter '<name>'" having made no call at all: the input
    is not opened, no volume is looked at, and the world is as it was.  The
    process then prints that error and exits with status 1. *)
Theorem unsupported_interpreter_before_any_io {W : Type} (env : Env W)
    (Get : string -> option Interpreter) (name inputPath : string)
    (outputPaths volumes : list string) (w : W) :
  Get name = None ->
  exec env (run Get name inputPath outputPaths volumes) w
  = (Some ("unsupported interpreter '" +:+ name +:+ "'"), w, [])
  /\ (forall program arguments cfg actual,
        flag_Parse arguments defaults [] = Parsed cfg actual volumes ->
        InterpreterName cfg = name ->
        let m := exec env (main Get program arguments) w in
        result_of m = 1
        /\ trace_of m = [EvStderr ("unsupported interpreter '" +:+ name +:+ "'")]).
Proof.
  intros HG. split.
  - unfold run, run_body. by rewrite HG.
  - intros program arguments cfg actual HP <- m. subst m. unfold main.
    rewrite HP.
    assert (InterpreterName (default_outs cfg) = InterpreterName cfg) as Hname
      by (unfold default_outs; by destruct (_ =? _)%nat).
    unfold run, run_body. rewrite Hname, HG.
    rewrite exec_mbind. simpl.
    by destruct (env _ _ w) as [[] w1].
Qed.

Lemma unsupported_interpreter_before_any_io_witness :
  let w := boot ∅ "{}" in
  let m := exec (reference literal_Render)
             (main interpreter_Get "cfgenerator"
                ["-interpreter=yaml"; "-in"; "/missing-template"; "/missing"]) w in
  exec (reference literal_Render)
    (run interpreter_Get "yaml" "/missing-template" ["out.json"] ["/missing"]) w
  = (Some "unsupported interpreter 'yaml'", w, [])
  /\ result_of m = 1 /\ trace_of m = [EvStderr "unsupported interpreter 'yaml'"].
Proof.
  intros w m.
  destruct (unsupported_interpreter_before_any_io (reference literal_Render)
              interpreter_Get "yaml" "/missing-template" ["out.json"] ["/missing"] w
              eq_refl) as [Hr Hm].
  split; [exact Hr |].
  eapply (Hm "cfgenerator"); reflexivity.
Defined.

(** ** Opening the outputs and writing to them *)

Lemma failed_open_not_in_opens p err paths hs :
  (p, inr err) ∉ zip_with (fun (p : string) (h : File) => (p, @inl File error h)) paths hs.
Proof.
  revert hs. induction paths as [| q paths IH]; intros [| h hs] Hin; simpl in Hin;
    try (by apply elem_of_nil in Hin).
  apply elem_of_cons in Hin as [Hin | Hin]; [discriminate | by eapply IH].
Qed.

Lemma run_success Get name inputPath outputPaths volumes tr :
  run_behaviour Get name inputPath outputPaths volumes None tr ->
  exists content hs,
    length hs = length outputPaths
    /\ generated tr = [inl content]
    /\ opened tr = zip_with (fun p h => (p, inl h)) outputPaths hs
    /\ written tr = (fun h => (Some h, content)) <$> hs.
Proof.
  intros Hb. inversion Hb; subst. exists content, hs. observe.
  rewrite !app_nil_r. repeat split; try done.
  by rewrite <- list_fmap_compose.
Qed.

(** C2: when [run] succeeds, every configured destination has been opened,
    in the order given, and the write calls are exactly one per destination,
    in that order, the i-th one to the file obtained for the i-th path, each
    with the whole content that [Generate] returned. *)
Theorem success_writes_same_content_in_order {W : Type} (env : Env W)
    (Get : string -> option Interpreter) (name inputPath : string)
    (outputPaths volumes : list string) (w : W) :
  let r := exec env (run Get name inputPath outputPaths volumes) w in
  result_of r = None ->
  exists content hs,
    length hs = length outputPaths
    /\ generated (trace_of r) = [inl content]
    /\ opened (trace_of r) = zip_with (fun p h => (p, inl h)) outputPaths hs
    /\ written (trace_of r) = (fun h => (Some h, content)) <$> hs.
Proof.
  intros r Hres.
  pose proof (run_behaves env Get name inputPath outputPaths volumes w) as Hb.
  fold r in Hb. rewrite Hres in Hb. by eapply run_success.
Qed.

Lemma success_writes_same_content_in_order_witness :
  let r := exec (reference literal_Render)
             (run interpreter_Get "plain" "-" ["a.txt"; "-"; "b.txt"] [])
             (boot ∅ "Hello") in
  exists content hs,
    length hs = 3%nat
    /\ generated (trace_of r) = [inl content]
    /\ opened (trace_of r)
       = zip_with (fun p h => (p, inl h)) ["a.txt"; "-"; "b.txt"] hs
    /\ written (trace_of r) = (fun h => (Some h, content)) <$> hs.
Proof.
  apply (success_writes_same_content_in_order (reference literal_Render)
           interpreter_Get "plain" "-" ["a.txt"; "-"; "b.txt"] [] (boot ∅ "Hello")).
  reflexivity.
Defined.

Lemma run_failed_open Get name inputPath outputPaths volumes res tr p err :
  run_behaviour Get name inputPath outputPaths volumes res tr ->
  (p, inr err) ∈ opened tr ->
  res = Some (open_error p err).
Proof.
  intros Hb Hin.
  inversion Hb; subst; observe_in Hin; members Hin.
  - apply elem_of_app in Hin as [Hin | Hin].
    + by apply failed_open_not_in_opens in Hin.
    + members Hin. by injection Hin as -> ->.
  - rewrite app_nil_r in Hin. by apply failed_open_not_in_opens in Hin.
Qed.

(** C5: [run] returns [nil] only if every configured output destination was
    opened successfully; when opening an output path fails, [run] returns
    "can't open output file '<path>': ..." for that path, and the process
    prints it and exits with status 1. *)
Theorem success_only_if_all_outputs_open {W : Type} (env : Env W)
    (Get : string -> option Interpreter) (name inputPath : string)
    (outputPaths volumes : list string) (program : string) (arguments : list string)
    (w : W) (p : string) (err : error) :
  let r := exec env (run Get name inputPath outputPaths volumes) w in
  let m := exec env (main Get program arguments) w in
  (result_of r = None ->
     exists hs, length hs = length outputPaths
       /\ opened (trace_of r) = zip_with (fun p h => (p, inl h)) outputPaths hs)
  /\ ((p, inr err) ∈ opened (trace_of r) -> result_of r = Some (open_error p err))
  /\ ((p, inr err) ∈ opened (trace_of m) ->
        result_of m = 1
        /\ last (trace_of m) = Some (EvStderr (open_error p err))).
Proof.
  intros r m.
  pose proof (run_behaves env Get name inputPath outputPaths volumes w) as Hb.
  fold r in Hb. split; [| split].
  - intros Hres. rewrite Hres in Hb.
    destruct (run_success _ _ _ _ _ _ Hb) as (content & hs & Hlen & _ & Ho & _).
    by exists hs.
  - intros Hin. by eapply run_failed_open.
  - intros Hin.
    pose proof (main_behaves env Get program arguments w) as Hm. fold m in Hm.
    destruct Hm as [Hp | msg Hp | cfg actual args e tr Hp Hr | cfg actual args tr Hp Hr];
      observe_in Hin; members Hin.
    + rewrite app_nil_r in Hin.
      pose proof (run_failed_open _ _ _ _ _ _ _ _ _ Hr Hin) as He.
      injection He as ->. by rewrite last_snoc.
    + by pose proof (run_failed_open _ _ _ _ _ _ _ _ _ Hr Hin).
Qed.

Lemma success_only_if_all_outputs_open_witness :
  let d : gmap string Node := {[ "blocked" := NodeDir [] ]} in
  let err := "open blocked: is a directory" in
  let ok := exec (reference literal_Render)
              (run interpreter_Get "plain" "-" ["a.txt"] []) (boot d "x") in
  let r := exec (reference literal_Render)
             (run interpreter_Get "plain" "-" ["a.txt"; "blocked"] []) (boot d "x") in
  let m := exec (reference literal_Render)
             (main interpreter_Get "cfgenerator" ["-out=a.txt"; "-out=blocked"])
             (boot d "x") in
  (exists hs, length hs = 1%nat
     /\ opened (trace_of ok) = zip_with (fun p h => (p, inl h)) ["a.txt"] hs)
  /\ result_of r = Some (open_error "blocked" err)
  /\ result_of m = 1
  /\ last (trace_of m) = Some (EvStderr (open_error "blocked" err)).
Proof.
  intros d err ok r m.
  destruct (success_only_if_all_outputs_open (reference literal_Render)
              interpreter_Get "plain" "-" ["a.txt"] []
              "cfgenerator" ["-out=a.txt"; "-out=blocked"] (boot d "x") "blocked" err)
    as (Hok & _ & Hm).
  destruct (success_only_if_all_outputs_open (reference literal_Render)
              interpreter_Get "plain" "-" ["a.txt"; "blocked"] []
              "cfgenerator" ["-out=a.txt"; "-out=blocked"] (boot d "x") "blocked" err)
    as (_ & Hr & _).
  split; [apply Hok; reflexivity |].
  split; [apply Hr; vm_compute; do 2 constructor |].
  apply Hm. vm_compute. do 2 constructor.
Defined.

Lemma run_write_error Get name inputPath outputPaths volumes res tr e :
  run_behaviour Get name inputPath outputPaths volumes res tr ->
  e ∈ write_errors tr ->
  res = None.
Proof.
  intros Hb Hin.
  inversion Hb; subst; observe_in Hin; members Hin. done.
Qed.

(** C6: when a write fails, every output has been opened, the write has
    still been attempted on every opened output, in order and with the same
    content, and [run] returns normally. *)
Theorem write_failure_does_not_stop_the_others {W : Type} (env : Env W)
    (Get : string -> option Interpreter) (name inputPath : string)
    (outputPaths volumes : list string) (w : W) (e : error) :
  let r := exec env (run Get name inputPath outputPaths volumes) w in
  e ∈ write_errors (trace_of r) ->
  result_of r = None
  /\ exists content hs,
       length hs = length outputPaths
       /\ opened (trace_of r) = zip_with (fun p h => (p, inl h)) outputPaths hs
       /\ written (trace_of r) = (fun h => (Some h, content)) <$> hs.
Proof.
  intros r Hin.
  pose proof (run_behaves env Get name inputPath outputPaths volumes w) as Hb.
  fold r in Hb.
  pose proof (run_write_error _ _ _ _ _ _ _ _ Hb Hin) as Hres.
  split; [done |]. rewrite Hres in Hb.
  destruct (run_success _ _ _ _ _ _ Hb) as (content & hs & Hlen & _ & Ho & Hw).
  by exists content, hs.
Qed.

Lemma write_failure_does_not_stop_the_others_witness :
  let r := exec (failing_writes (reference literal_Render))
             (run interpreter_Get "plain" "-" ["a.txt"; "-"; "b.txt"] [])
             (boot ∅ "Hello") in
  result_of r = None
  /\ exists content hs,
       length hs = 3%nat
       /\ opened (trace_of r)
          = zip_with (fun p h => (p, inl h)) ["a.txt"; "-"; "b.txt"] hs
       /\ written (trace_of r) = (fun h => (Some h, content)) <$> hs.
Proof.
  apply (write_failure_does_not_stop_the_others
           (failing_writes (reference literal_Render))
           interpreter_Get "plain" "-" ["a.txt"; "-"; "b.txt"] [] (boot ∅ "Hello")
           "write: no space left on device").
  vm_compute. constructor.
Defined.

Lemma run_all_steps_succeeded Get name inputPath outputPaths volumes res tr runtime :
  run_behaviour Get name inputPath outputPaths volumes res tr ->
  Get name = Some runtime ->
  forallb step_succeeded tr = true ->
  res = None.
Proof.
  intros Hb HG Hall.
  inversion Hb; subst; try done; try congruence.
  cbn [app forallb step_succeeded] in Hall.
  rewrite !forallb_app, forallb_opens_ok in Hall. done.
Qed.

(** C9: when the interpreter is found and neither the input open, nor the
    generation, nor any output open fails, [run] returns [nil] and the
    process exits with status 0, whatever the writes (and the closes)
    answer: nothing is assumed about them. *)
Theorem write_results_are_discarded {W : Type} (env : Env W)
    (Get : string -> option Interpreter) (name inputPath : string)
    (outputPaths volumes : list string) (program : string) (arguments : list string)
    (w : W) (runtime : Interpreter) :
  let r := exec env (run Get name inputPath outputPaths volumes) w in
  let m := exec env (main Get program arguments) w in
  (Get name = Some runtime ->
   forallb step_succeeded (trace_of r) = true ->
   result_of r = None)
  /\ (forall cfg actual args,
        flag_Parse arguments defaults [] = Parsed cfg actual args ->
        Get (InterpreterName cfg) = Some runtime ->
        forallb step_succeeded (trace_of m) = true ->
        result_of m = 0).
Proof.
  intros r m. split.
  - intros HG Hall. eapply run_all_steps_succeeded; [apply run_behaves | done | done].
  - intros cfg actual args HP HG Hall.
    pose proof (main_behaves env Get program arguments w) as Hm. fold m in Hm.
    destruct Hm as [Hp | msg Hp | cfg' actual' args' e tr Hp Hr | cfg' actual' args' tr Hp Hr];
      try done; try congruence.
    rewrite HP in Hp. injection Hp as <- <- <-.
    rewrite forallb_app in Hall. apply andb_prop in Hall as [Hall _].
    assert (InterpreterName (default_outs cfg) = InterpreterName cfg) as Hname
      by (unfold default_outs; by destruct (_ =? _)%nat).
    rewrite Hname in Hr.
    by pose proof (run_all_steps_succeeded _ _ _ _ _ _ _ _ Hr HG Hall).
Qed.

Lemma write_results_are_discarded_witness :
  let env := failing_writes (reference literal_Render) in
  let r := exec env (run interpreter_Get "jsonnet" "-" ["a.txt"; "-"] []) (boot ∅ "{}") in
  let m := exec env (main interpreter_Get "cfgenerator" ["-out=a.txt"; "-out=-"])
             (boot ∅ "{}") in
  result_of r = None /\ result_of m = 0
  /\ write_errors (trace_of r)
     = ["write: no space left on device"; "write: no space left on device"].
Proof.
  intros env r m.
  destruct (write_results_are_discarded env interpreter_Get "jsonnet" "-"
              ["a.txt"; "-"] [] "cfgenerator" ["-out=a.txt"; "-out=-"] (boot ∅ "{}")
              Jsonnet) as [Hr Hm].
  split; [by apply Hr |].
  split; [by eapply Hm |].
  reflexivity.
Defined.

(** ** The trace is what happened *)

Lemma answers_event {W R : Type} (env : Env W) (c : Call R) (w : W) :
  answers env (event c (env _ c w).1) w (env _ c w).2.
Proof.
  destruct c; simpl; try apply surjective_pairing.
  - by destruct (env _ _ w) as [[] w1].
  - by destruct (env _ _ w) as [[] w1].
Qed.

Lemma exec_replays {W A : Type} (env : Env W) (p : Prog A) (w : W) :
  replays env w (trace_of (exec env p w)) (world_of (exec env p w)).
Proof.
  revert w. induction p as [a | R c k IH]; intros w; [done |].
  simpl. pose proof (answers_event env c w) as Ha.
  destruct (env R c w) as [r w1]. specialize (IH r w1).
  destruct (exec env (k r) w1) as [[a w2] tr].
  by exists w1.
Qed.

Lemma run_failed_open_at Get name inputPath outputPaths volumes res tr i p err :
  run_behaviour Get name inputPath outputPaths volumes res tr ->
  opened tr !! i = Some (p, inr err) ->
  outputPaths !! i = Some p
  /\ res = Some (open_error p err)
  /\ exists runtime input content hs rc,
       length hs = i /\ length rc = S i
       /\ tr = [EvOpenInput inputPath (inl input);
                EvGenerate runtime input volumes (inl content)]
               ++ opens_ok (take i outputPaths) hs
               ++ [EvOpenOutput p (inr err)]
               ++ closes (reverse hs ++ [input]) rc.
Proof.
  intros Hb Hi.
  inversion Hb; subst; observe_in Hi; try done.
  - rewrite ?app_nil_r in Hi.
    assert (length (zip_with (fun (p : string) (h : File) => (p, @inl File error h))
                      before hs) = length before) as Hlen
      by (rewrite length_zip_with; lia).
    destruct (decide (i < length before)%nat) as [Hlt | Hge].
    + rewrite lookup_app_l in Hi by lia.
      apply list_elem_of_lookup_2 in Hi. by apply failed_open_not_in_opens in Hi.
    + rewrite lookup_app_r in Hi by lia. rewrite Hlen in Hi.
      destruct (i - length before)%nat as [| n] eqn:En; [| done].
      injection Hi as -> ->.
      assert (i = length before) as -> by lia.
      split; [by apply list_lookup_middle |]. split; [done |].
      exists runtime, input, content, hs, rc.
      rewrite take_app_length. split; [done | split; [lia | done]].
  - rewrite ?app_nil_r in Hi.
    apply list_elem_of_lookup_2 in Hi. by apply failed_open_not_in_opens in Hi.
Qed.

(** C10: when opening the i-th output fails, the outputs before it have
    all been opened successfully, nothing is written to any of them, and
    they are closed (last opened first, then the input) after the failed
    open; [run] returns the open error.  The world after the run is the one
    these calls lead to: whatever opening an output does to the file system
    has been done for the earlier destinations. *)
Theorem failed_open_leaves_earlier_outputs_opened {W : Type} (env : Env W)
    (Get : string -> option Interpreter) (name inputPath : string)
    (outputPaths volumes : list string) (w : W) (i : nat) (p : string) (err : error) :
  let r := exec env (run Get name inputPath outputPaths volumes) w in
  opened (trace_of r) !! i = Some (p, inr err) ->
  outputPaths !! i = Some p
  /\ result_of r = Some (open_error p err)
  /\ (exists runtime input content hs rc,
        length hs = i /\ length rc = S i
        /\ trace_of r = [EvOpenInput inputPath (inl input);
                         EvGenerate runtime input volumes (inl content)]
                        ++ opens_ok (take i outputPaths) hs
                        ++ [EvOpenOutput p (inr err)]
                        ++ closes (reverse hs ++ [input]) rc
        /\ closed (trace_of r) = reverse hs ++ [input])
  /\ written (trace_of r) = []
  /\ replays env w (trace_of r) (world_of r).
Proof.
  intros r Hi.
  pose proof (run_behaves env Get name inputPath outputPaths volumes w) as Hb.
  fold r in Hb.
  destruct (run_failed_open_at _ _ _ _ _ _ _ _ _ _ Hb Hi)
    as (Hp & Hres & runtime & input & content & hs & rc & Hhs & Hrc & Htr).
  split; [done |]. split; [done |]. split; [| split; [| apply exec_replays]].
  - exists runtime, input, content, hs, rc. repeat split; try done.
    rewrite Htr. observe. done.
  - rewrite Htr. observe. done.
Qed.

(** A run in the reference environment whose third output is a directory:
    the first output, an existing file, is left truncated, the second one
    is left created and empty, the fourth is never touched. *)
Lemma failed_open_leaves_earlier_outputs_opened_witness :
  let d : gmap string Node :=
    {[ "a.txt" := NodeFile "old content"; "blocked" := NodeDir [] ]} in
  let outputPaths := ["a.txt"; "new.txt"; "blocked"; "never.txt"] in
  let err := "open blocked: is a directory" in
  let env := reference literal_Render in
  let r := exec env (run interpreter_Get "plain" "-" outputPaths []) (boot d "Hello") in
  (outputPaths !! 2%nat = Some "blocked"
   /\ result_of r = Some (open_error "blocked" err)
   /\ (exists runtime input content hs rc,
         length hs = 2%nat /\ length rc = 3%nat
         /\ trace_of r = [EvOpenInput "-" (inl input);
                          EvGenerate runtime input [] (inl content)]
                         ++ opens_ok (take 2 outputPaths) hs
                         ++ [EvOpenOutput "blocked" (inr err)]
                         ++ closes (reverse hs ++ [input]) rc
         /\ closed (trace_of r) = reverse hs ++ [input])
   /\ written (trace_of r) = []
   /\ replays env (boot d "Hello") (trace_of r) (world_of r))
  /\ disk (world_of r) !! "a.txt" = Some (NodeFile "")
  /\ disk (world_of r) !! "new.txt" = Some (NodeFile "")
  /\ disk (world_of r) !! "never.txt" = None
  /\ stdout (world_of r) = "".
Proof.
  intros d outputPaths err env r. split.
  - apply (failed_open_leaves_earlier_outputs_opened env interpreter_Get "plain" "-"
             outputPaths [] (boot d "Hello") 2 "blocked" err).
    reflexivity.
  - vm_compute. repeat split.
Defined.

(** ** The command line *)

Lemma formal_name name f :
  formal name = Some f ->
  name = match f with
         | interpreter_flag => "interpreter"
         | in_flag => "in"
         | out_flag => "out"
         end.
Proof.
  unfold formal. intros H.
  destruct (String.eqb_spec name "interpreter"); [by injection H as <- |].
  destruct (String.eqb_spec name "in"); [by injection H as <- |].
  destruct (String.eqb_spec name "out"); [by injection H as <- |].
  discriminate.
Qed.

(** One round of [parseOne] that is followed by another. *)
Lemma flag_Parse_cons s rest cfg actual cfg' actual' args :
  flag_Parse (s :: rest) cfg actual = Parsed cfg' actual' args ->
  (cfg' = cfg /\ actual' = actual)
  \/ exists name f value rest1,
       formal name = Some f
       /\ (length rest1 <= length rest)%nat
       /\ (Value_Set f value cfg).2 = None
       /\ flag_Parse rest1 (Value_Set f value cfg).1 (actual ++ [name])
          = Parsed cfg' actual' args.
Proof.
  cbn [flag_Parse]. destruct (parse_arg s) as [| | | name hasValue]; try done.
  - intros [= <- <- <-]. by left.
  - intros [= <- <- <-]. by left.
  - destruct (formal name) as [f |] eqn:Ef.
    2:{ by destruct (_ || _). }
    destruct hasValue as [value |]; [| destruct rest as [| value rest1]; [done |]].
    + destruct (Value_Set f value cfg) as [cfg1 [e |]] eqn:EV; [done |].
      intros HP. right. exists name, f, value, rest. rewrite EV. auto.
    + destruct (Value_Set f value cfg) as [cfg1 [e |]] eqn:EV; [done |].
      intros HP. right. exists name, f, value, rest1. rewrite EV. simpl.
      repeat split; auto.
Qed.

Lemma flag_Parse_keeps (n : nat) :
  forall arguments cfg actual cfg' actual' args,
    (length arguments <= n)%nat ->
    flag_Parse arguments cfg actual = Parsed cfg' actual' args ->
    (forall name, name ∈ actual -> name ∈ actual')
    /\ ("interpreter" ∉ actual' -> InterpreterName cfg' = InterpreterName cfg)
    /\ ("in" ∉ actual' -> In cfg' = In cfg)
    /\ ("out" ∉ actual' -> Outs cfg' = Outs cfg).
Proof.
  induction n as [| n IH]; intros arguments cfg actual cfg' actual' args Hn HP.
  - destruct arguments; [| simpl in Hn; lia].
    simpl in HP. by injection HP as <- <- <-.
  - destruct arguments as [| s rest].
    { simpl in HP. by injection HP as <- <- <-. }
    apply flag_Parse_cons in HP
      as [[-> ->] | (name & f & value & rest1 & Hf & Hlen & _ & HP)]; [done |].
    apply IH in HP as (Hsub & Hi & Hin & Ho); [| simpl in Hn; lia].
    assert (name ∈ actual') as Hname by (apply Hsub, elem_of_app; right; constructor).
    apply formal_name in Hf.
    split; [intros x Hx; apply Hsub, elem_of_app; by left |].
    repeat split; intros Hnot.
    + rewrite Hi by done. destruct f; simpl; try done. by subst name.
    + rewrite Hin by done. destruct f; simpl; try done. by subst name.
    + rewrite Ho by done. destruct f; simpl; try done. by subst name.
Qed.

(** C7: a flag that is not given keeps its default: the interpreter name
    is "jsonnet" without [-interpreter], the input is "-" without [-in], and
    the outputs are the single "-" without any [-out]; [main] calls [run]
    with these values. *)
Theorem cli_defaults (Get : string -> option Interpreter) (program : string)
    (arguments : list string) (cfg : Config) (actual args : list string) :
  flag_Parse arguments defaults [] = Parsed cfg actual args ->
  main Get program arguments
  = (err ← run Get (InterpreterName (default_outs cfg)) (In (default_outs cfg))
             (Outs (default_outs cfg)) args;
     report err)
  /\ ("interpreter" ∉ actual -> InterpreterName (default_outs cfg) = "jsonnet")
  /\ ("in" ∉ actual -> In (default_outs cfg) = "-")
  /\ ("out" ∉ actual -> Outs (default_outs cfg) = ["-"]).
Proof.
  intros HP. split; [unfold main; by rewrite HP |].
  apply (flag_Parse_keeps (length arguments)) in HP as (_ & Hi & Hin & Ho); [| done].
  unfold default_outs.
  repeat split; intros Hnot.
  - destruct (_ =? _)%nat; simpl; by rewrite Hi.
  - destruct (_ =? _)%nat; simpl; by rewrite Hin.
  - by rewrite Ho.
Qed.

Lemma cli_defaults_witness :
  let given_in := ["-in=t.jsonnet"; "/data/configmap"] in
  let given_out := ["-out"; "app.json"; "-interpreter=plain"] in
  (main interpreter_Get "cfgenerator" given_in
   = (err ← run interpreter_Get "jsonnet" "t.jsonnet" ["-"] ["/data/configmap"];
      report err))
  /\ (main interpreter_Get "cfgenerator" given_out
      = (err ← run interpreter_Get "plain" "-" ["app.json"] []; report err)).
Proof.
  intros given_in given_out.
  destruct (cli_defaults interpreter_Get "cfgenerator" given_in
              {| InterpreterName := "jsonnet"; In := "t.jsonnet"; Outs := [] |}
              ["in"] ["/data/configmap"] eq_refl) as (Hm & Hi & _ & Ho).
  destruct (cli_defaults interpreter_Get "cfgenerator" given_out
              {| InterpreterName := "plain"; In := "-"; Outs := ["app.json"] |}
              ["out"; "interpreter"] [] eq_refl) as (Hm' & _ & Hin & _).
  split.
  - rewrite Hm, Hi, Ho; [done | |]; intros H; members H; discriminate.
  - rewrite Hm', Hin; [done |]. intros H; members H; discriminate.
Defined.

Lemma flag_Parse_positional args cfg actual :
  positional args -> flag_Parse args cfg actual = Parsed cfg actual args.
Proof.
  destruct args as [| s rest]; [done |]. simpl. by intros ->.
Qed.

Lemma flag_Parse_out_flags (flags : list (bool * string)) :
  forall cfg actual volumes,
    positional volumes ->
    flag_Parse (concat (out_arguments <$> flags) ++ volumes) cfg actual
    = Parsed {| InterpreterName := InterpreterName cfg; In := In cfg;
                Outs := Outs cfg ++ flags.*2 |}
             (actual ++ replicate (length flags) "out") volumes.
Proof.
  induction flags as [| [[] o] flags IH]; intros cfg actual volumes Hpos.
  - simpl. rewrite !app_nil_r. destruct cfg. by apply flag_Parse_positional.
  - cbn [fmap list_fmap concat out_arguments fst snd app].
    change (flag_Parse (("-out=" +:+ o) :: _) cfg actual)
      with (flag_Parse (concat (out_arguments <$> flags) ++ volumes)
              {| InterpreterName := InterpreterName cfg; In := In cfg;
                 Outs := Outs cfg ++ [o] |} (actual ++ ["out"])).
    rewrite IH by done. simpl. by rewrite <- !app_assoc.
  - cbn [fmap list_fmap concat out_arguments fst snd app].
    change (flag_Parse ("-out" :: o :: _) cfg actual)
      with (flag_Parse (concat (out_arguments <$> flags) ++ volumes)
              {| InterpreterName := InterpreterName cfg; In := In cfg;
                 Outs := Outs cfg ++ [o] |} (actual ++ ["out"])).
    rewrite IH by done. simpl. by rewrite <- !app_assoc.
Qed.

(** C8: the [-out] flags of the command line, in either spelling and with
    repetitions, end up in [cfg.Outs] in the order given, nothing removed
    ([stringsFlag.Set] appends); a run that exits with status 0 has opened
    one file per occurrence, in that order, and written the content once to
    each of these files. *)
Theorem every_out_flag_is_opened_and_written {W : Type} (env : Env W)
    (Get : string -> option Interpreter) (program : string)
    (flags : list (bool * string)) (volumes : list string) (w : W) :
  let outs := flags.*2 in
  let arguments := concat (out_arguments <$> flags) ++ volumes in
  let m := exec env (main Get program arguments) w in
  flags <> [] ->
  positional volumes ->
  (forall s value, stringsFlag_Set s value = (s ++ [value], None))
  /\ flag_Parse arguments defaults []
     = Parsed {| InterpreterName := "jsonnet"; In := "-"; Outs := outs |}
              (replicate (length flags) "out") volumes
  /\ (result_of m = 0 ->
        exists content hs,
          length hs = length outs
          /\ opened (trace_of m) = zip_with (fun p h => (p, inl h)) outs hs
          /\ written (trace_of m) = (fun h => (Some h, content)) <$> hs).
Proof.
  intros outs arguments m Hne Hpos.
  assert (flag_Parse arguments defaults []
          = Parsed {| InterpreterName := "jsonnet"; In := "-"; Outs := outs |}
                   (replicate (length flags) "out") volumes) as HP
    by (unfold arguments; by rewrite flag_Parse_out_flags).
  split; [done |]. split; [done |]. intros Hres.
  pose proof (main_behaves env Get program arguments w) as Hm. fold m in Hm.
  rewrite Hres in Hm.
  inversion Hm as [Hp | | | cfg actual args tr Hp Hr]; [congruence |].
  rewrite HP in Hp. injection Hp as <- <- <-.
  assert (default_outs {| InterpreterName := "jsonnet"; In := "-"; Outs := outs |}
          = {| InterpreterName := "jsonnet"; In := "-"; Outs := outs |}) as Hd.
  { unfold default_outs, outs. simpl. destruct flags; [done | by simpl]. }
  rewrite Hd in Hr. simpl in Hr.
  destruct (run_success _ _ _ _ _ _ Hr) as (content & hs & Hlen & _ & Ho & Hw).
  by exists content, hs.
Qed.

Lemma every_out_flag_is_opened_and_written_witness :
  let flags := [(true, "a.txt"); (false, "a.txt"); (true, "-"); (false, "-")] in
  let outs := ["a.txt"; "a.txt"; "-"; "-"] in
  let arguments := ["-out=a.txt"; "-out"; "a.txt"; "-out=-"; "-out"; "-"; "/data"] in
  let d : gmap string Node := {[ "/data" := NodeDir [("PORT", RegularFile "8080")] ]} in
  let m := exec (reference literal_Render) (main interpreter_Get "cfgenerator" arguments)
             (boot d "{}") in
  (forall s value, stringsFlag_Set s value = (s ++ [value], None))
  /\ flag_Parse arguments defaults []
     = Parsed {| InterpreterName := "jsonnet"; In := "-"; Outs := outs |}
              ["out"; "out"; "out"; "out"] ["/data"]
  /\ exists content hs,
       length hs = 4%nat
       /\ opened (trace_of m) = zip_with (fun p h => (p, inl h)) outs hs
       /\ written (trace_of m) = (fun h => (Some h, content)) <$> hs.
Proof.
  intros flags outs arguments d m.
  destruct (every_out_flag_is_opened_and_written (reference literal_Render)
              interpreter_Get "cfgenerator" flags ["/data"] (boot d "{}"))
    as (Hset & Hparse & Hrun); [discriminate | reflexivity |].
  split; [exact Hset |]. split; [exact Hparse |].
  apply Hrun. reflexivity.
Defined.

(** ** The volume collector *)

Lemma last_value_app name a b :
  last_value name (a ++ b)
  = match last_value name b with
    | Some v => Some v
    | None => last_value name a
    end.
Proof.
  induction a as [| [n v] a IH]; simpl.
  - by destruct (last_value name b).
  - rewrite IH. by destruct (last_value name b).
Qed.

Lemma last_value_is_Some name entries :
  is_Some (last_value name entries) <-> name ∈ entries.*1.
Proof.
  induction entries as [| [n v] entries IH]; simpl.
  - split; [by intros [? ?] | by intros ?%elem_of_nil].
  - rewrite elem_of_cons, <- IH. simpl.
    destruct (last_value name entries) as [v' |].
    + split; [right | ]; by eexists.
    + destruct (decide (n = name)) as [-> | Hne].
      * split; [by left | by eexists].
      * split; [by intros [? ?] | intros [-> | [? ?]]; done].
Qed.

Lemma last_value_None name entries :
  last_value name entries = None <-> name ∉ entries.*1.
Proof.
  rewrite <- last_value_is_Some, eq_None_not_Some. done.
Qed.

Lemma collect_dir_lookup children :
  forall (vars : gmap string string) name,
    collect_dir children vars !! name
    = match last_value name (regular_files children) with
      | Some v => Some v
      | None => vars !! name
      end.
Proof.
  induction children as [| [n [content |]] children IH]; intros vars name; simpl.
  - done.
  - rewrite IH. fold (regular_files children).
    destruct (last_value name (regular_files children)); [done |].
    rewrite lookup_insert. by destruct (decide (n = name)).
  - apply IH.
Qed.

Lemma encountered_cons fs path paths :
  encountered fs (path :: paths) = file_entries fs path ++ encountered fs paths.
Proof. done. Qed.

Lemma encountered_app fs before after :
  encountered fs (before ++ after) = encountered fs before ++ encountered fs after.
Proof. unfold encountered. by rewrite fmap_app, concat_app. Qed.

Lemma collect_from_lookup fs paths :
  forall vars : gmap string string,
    Forall (fun path => is_Some (fs !! path)) paths ->
    exists vars',
      collect_from fs paths vars = inl vars'
      /\ forall name,
           vars' !! name
           = match last_value name (encountered fs paths) with
             | Some v => Some v
             | None => vars !! name
             end.
Proof.
  induction paths as [| path paths IH]; intros vars Hok.
  - by exists vars.
  - apply Forall_cons in Hok as [[node Hnode] Hok].
    cbn [collect_from]. rewrite Hnode.
    destruct node as [content | children].
    + destruct (IH (<[filepath_Base path := content]> vars) Hok) as (vars' & -> & Hl).
      exists vars'. split; [done |]. intros name.
      rewrite Hl, encountered_cons, last_value_app. unfold file_entries.
      rewrite Hnode. simpl.
      destruct (last_value name (encountered fs paths)); [done |].
      rewrite lookup_insert. by destruct (decide (filepath_Base path = name)).
    + destruct (IH (collect_dir children vars) Hok) as (vars' & -> & Hl).
      exists vars'. split; [done |]. intros name.
      rewrite Hl, encountered_cons, last_value_app. unfold file_entries.
      rewrite Hnode.
      destruct (last_value name (encountered fs paths)); [done |].
      apply collect_dir_lookup.
Qed.

Lemma last_value_encountered_None fs paths name :
  (forall path, path ∈ paths -> name ∉ (file_entries fs path).*1) ->
  last_value name (encountered fs paths) = None.
Proof.
  induction paths as [| path paths IH]; intros Hnot; [done |].
  rewrite encountered_cons, last_value_app, IH.
  - apply last_value_None, Hnot. by left.
  - intros q Hq. apply Hnot. by right.
Qed.

(** C4: for a list of volume paths that all exist, the collector returns a
    mapping whose keys are exactly the names of the file entries met, one
    entry for each distinct name, each bound to the content of the last
    entry of that name in traversal order; so when a later path yields a
    name that earlier paths yielded too, the later value is the one kept,
    and the collection does not fail. *)
Theorem collector_last_writer_wins (fs : gmap string Node) (paths : list string) :
  Forall (fun path => is_Some (fs !! path)) paths ->
  exists vars : gmap string string,
    Collect fs paths = inl vars
    /\ dom vars = list_to_set (encountered fs paths).*1
    /\ size vars = length (remove_dups (encountered fs paths).*1)
    /\ (forall name, vars !! name = last_value name (encountered fs paths))
    /\ (forall before path after name v,
          paths = before ++ path :: after ->
          last_value name (file_entries fs path) = Some v ->
          (forall later, later ∈ after -> name ∉ (file_entries fs later).*1) ->
          vars !! name = Some v).
Proof.
  intros Hok.
  destruct (collect_from_lookup fs paths ∅ Hok) as (vars & HC & Hl).
  assert (forall name, vars !! name = last_value name (encountered fs paths)) as Hlast.
  { intros name. rewrite Hl, lookup_empty.
    by destruct (last_value name (encountered fs paths)). }
  assert (dom vars = list_to_set (encountered fs paths).*1) as Hdom.
  { apply set_eq. intros name.
    by rewrite elem_of_dom, elem_of_list_to_set, Hlast, last_value_is_Some. }
  exists vars. split; [done |]. split; [done |]. split; [| split; [done |]].
  - rewrite <- size_dom, Hdom.
    rewrite <- (size_list_to_set (C:=gset string) (remove_dups _))
      by apply NoDup_remove_dups.
    f_equal. apply set_eq. intros name.
    by rewrite !elem_of_list_to_set, elem_of_remove_dups.
  - intros before path after name v -> Hv Hlater.
    rewrite Hlast, encountered_app, encountered_cons, !last_value_app.
    by rewrite (last_value_encountered_None fs after name Hlater), Hv.
Qed.

Lemma collector_last_writer_wins_witness :
  let fs : gmap string Node :=
    {[ "/data/configmap" := NodeDir [("API_PORT", RegularFile "8080");
                                     ("nested", SubDirectory);
                                     ("DATABASE_USERNAME", RegularFile "app")];
       "/data/secrets" := NodeDir [("DATABASE_PASSWORD", RegularFile "s3cret");
                                   ("API_PORT", RegularFile "9090")];
       "/override/DATABASE_USERNAME" := NodeFile "admin" ]} in
  let paths := ["/data/configmap"; "/data/secrets"; "/override/DATABASE_USERNAME"] in
  exists vars : gmap string string,
    Collect fs paths = inl vars
    /\ dom vars = list_to_set (encountered fs paths).*1
    /\ size vars = 3%nat
    /\ vars !! "API_PORT" = Some "9090"
    /\ vars !! "DATABASE_USERNAME" = Some "admin"
    /\ vars !! "DATABASE_PASSWORD" = Some "s3cret"
    /\ vars !! "nested" = None.
Proof.
  intros fs paths.
  destruct (collector_last_writer_wins fs paths) as (vars & HC & Hdom & Hsize & Hl & Hwin).
  { repeat constructor; by eexists. }
  exists vars. split; [exact HC |]. split; [exact Hdom |].
  split; [rewrite Hsize; reflexivity |].
  split; [| rewrite !Hl; repeat split].
  apply (Hwin ["/data/configmap"] "/data/secrets" ["/override/DATABASE_USERNAME"]);
    [reflexivity | reflexivity |].
  intros later Hlater. members Hlater. subst later.
  change ((file_entries fs "/override/DATABASE_USERNAME").*1)
    with ["DATABASE_USERNAME"].
  intros Hin. members Hin. discriminate.
Defined.

(** ** Concrete command lines and paths *)

Example flag_Parse_mixed :
  flag_Parse ["-out=a"; "--out"; "b"; "-in"; "t.jsonnet"; "/data"; "-out=c"] defaults []
  = Parsed {| InterpreterName := "jsonnet"; In := "t.jsonnet"; Outs := ["a"; "b"] |}
           ["out"; "out"; "in"] ["/data"; "-out=c"].
Proof. reflexivity. Qed.

Example flag_Parse_terminator :
  flag_Parse ["-interpreter"; "plain"; "--"; "-odd-volume"] defaults []
  = Parsed {| InterpreterName := "plain"; In := "-"; Outs := [] |}
           ["interpreter"] ["-odd-volume"].
Proof. reflexivity. Qed.

Example flag_Parse_errors :
  flag_Parse ["-h"] defaults [] = ErrHelp
  /\ flag_Parse ["-verbose"] defaults []
     = ParseError "flag provided but not defined: -verbose"
  /\ flag_Parse ["-out"] defaults [] = ParseError "flag needs an argument: -out"
  /\ flag_Parse ["---out"] defaults [] = ParseError "bad flag syntax: ---out".
Proof. repeat split. Qed.

Example filepath_Base_examples :
  filepath_Base "/data/configmap/" = "configmap"
  /\ filepath_Base "PORT" = "PORT"
  /\ filepath_Base "///" = "/"
  /\ filepath_Base "" = "."
  /\ filepath_Base "a/b.txt" = "b.txt".
Proof. repeat split. Qed.

Example interpreter_Get_is_case_sensitive :
  interpreter_Get "plain" = Some Plain
  /\ interpreter_Get "jsonnet" = Some Jsonnet
  /\ interpreter_Get "Plain" = None
  /\ interpreter_Get "" = None.
Proof. repeat split. Qed.

(** Two [-out] flags: the same content at both destinations, and the
    complete trace of the run. *)
Example two_outputs_in_the_reference_environment :
  let d : gmap string Node := {[ "/data/NAME" := NodeFile "World" ]} in
  let m := exec (reference literal_Render)
             (main interpreter_Get "/usr/local/bin/cfgenerator"
                ["-interpreter=plain"; "-out"; "app.conf"; "-out=-"; "/data/NAME"])
             (boot d "static text") in
  result_of m = 0
  /\ trace_of m
     = [EvOpenInput "-" (inl os_Stdin);
        EvGenerate Plain os_Stdin ["/data/NAME"] (inl "static text");
        EvOpenOutput "app.conf" (inl 3%nat);
        EvOpenOutput "-" (inl os_Stdout);
        EvFprint (Some 3%nat) "static text" (11, None);
        EvFprint (Some os_Stdout) "static text" (11, None);
        EvClose os_Stdout None; EvClose 3%nat None; EvClose os_Stdin None]
  /\ disk (world_of m) !! "app.conf" = Some (NodeFile "static text")
  /\ stdout (world_of m) = "static text".
Proof. vm_compute. repeat split. Qed.

(** * Further properties of [run] and [main] *)

Lemma input_opens_app a b : input_opens (a ++ b) = input_opens a ++ input_opens b.
Proof. apply omap_app. Qed.
Lemma input_opens_opens_ok paths hs : input_opens (opens_ok paths hs) = [].
Proof. by apply omap_zip_with_none. Qed.
Lemma input_opens_writes c os rs : input_opens (writes c os rs) = [].
Proof. by apply omap_zip_with_none. Qed.
Lemma input_opens_closes fs rs : input_opens (closes fs rs) = [].
Proof. by apply omap_zip_with_none. Qed.

Lemma acquired_app a b : acquired (a ++ b) = acquired a ++ acquired b.
Proof. apply omap_app. Qed.
Lemma zip_with_right {A B C : Type} (g : B -> C) (l : list A) (k : list B) :
  length k = length l -> zip_with (fun _ b => g b) l k = g <$> k.
Proof.
  revert k. induction l as [| a l IH]; intros [| b k] Hlen; simpl in *; try done.
  f_equal. apply IH. lia.
Qed.
Lemma acquired_opens_ok paths hs :
  length hs = length paths -> acquired (opens_ok paths hs) = hs.
Proof.
  intros Hlen. unfold acquired, opens_ok.
  rewrite (omap_zip_with_some _ _ (fun _ h => h)) by done.
  rewrite (zip_with_right id) by done. apply list_fmap_id.
Qed.
Lemma acquired_writes c os rs : acquired (writes c os rs) = [].
Proof. by apply omap_zip_with_none. Qed.
Lemma acquired_closes fs rs : acquired (closes fs rs) = [].
Proof. by apply omap_zip_with_none. Qed.

Lemma generate_calls_app a b :
  generate_calls (a ++ b) = generate_calls a ++ generate_calls b.
Proof. apply omap_app. Qed.
Lemma generate_calls_opens_ok paths hs : generate_calls (opens_ok paths hs) = [].
Proof. by apply omap_zip_with_none. Qed.
Lemma generate_calls_writes c os rs : generate_calls (writes c os rs) = [].
Proof. by apply omap_zip_with_none. Qed.
Lemma generate_calls_closes fs rs : generate_calls (closes fs rs) = [].
Proof. by apply omap_zip_with_none. Qed.

#[export] Hint Rewrite input_opens_app input_opens_opens_ok input_opens_writes
  input_opens_closes acquired_app acquired_writes acquired_closes
  generate_calls_app generate_calls_opens_ok generate_calls_writes
  generate_calls_closes : trace.
#[export] Hint Rewrite acquired_opens_ok
  using (rewrite ?length_fmap, ?length_app, ?length_reverse; simpl; lia) : trace.

(** ** The input *)

Lemma run_input_failure Get name inputPath outputPaths volumes res tr p err :
  run_behaviour Get name inputPath outputPaths volumes res tr ->
  (p, inr err) ∈ input_opens tr ->
  p = inputPath
  /\ res = Some ("can't open input file '" +:+ inputPath +:+ "': " +:+ err)
  /\ tr = [EvOpenInput inputPath (inr err)].
Proof.
  intros Hb Hin.
  inversion Hb; subst; observe_in Hin; members Hin; try discriminate Hin.
  by injection Hin as -> ->.
Qed.

(** X1: when the input cannot be opened, [run] returns "can't open input
    file '<path>': ..." and that open is the only call it has made: nothing
    is generated, no output is opened, nothing is closed; the process
    prints the error and exits with status 1. *)
Theorem input_open_failure_is_the_only_call {W : Type} (env : Env W)
    (Get : string -> option Interpreter) (name inputPath : string)
    (outputPaths volumes : list string) (program : string) (arguments : list string)
    (w : W) (p : string) (err : error) :
  let r := exec env (run Get name inputPath outputPaths volumes) w in
  let m := exec env (main Get program arguments) w in
  ((p, inr err) ∈ input_opens (trace_of r) ->
     result_of r = Some ("can't open input file '" +:+ inputPath +:+ "': " +:+ err)
     /\ trace_of r = [EvOpenInput inputPath (inr err)])
  /\ ((p, inr err) ∈ input_opens (trace_of m) ->
       result_of m = 1
       /\ trace_of m = [EvOpenInput p (inr err);
                        EvStderr ("can't open input file '" +:+ p +:+ "': " +:+ err)]).
Proof.
  intros r m. split; intros Hin.
  - pose proof (run_behaves env Get name inputPath outputPaths volumes w) as Hb.
    fold r in Hb. by destruct (run_input_failure _ _ _ _ _ _ _ _ _ Hb Hin) as (_ & ? & ?).
  - pose proof (main_behaves env Get program arguments w) as Hm. fold m in Hm.
    destruct Hm as [Hp | msg Hp | cfg actual args e tr Hp Hb | cfg actual args tr Hp Hb];
      observe_in Hin; members Hin.
    + rewrite app_nil_r in Hin.
      destruct (run_input_failure _ _ _ _ _ _ _ _ _ Hb Hin) as (-> & He & ->).
      by injection He as ->.
    + by destruct (run_input_failure _ _ _ _ _ _ _ _ _ Hb Hin) as (_ & ? & _).
Qed.

Lemma input_open_failure_is_the_only_call_witness :
  let err := "open /missing.jsonnet: no such file or directory" in
  let msg := "can't open input file '/missing.jsonnet': " +:+ err in
  let r := exec (reference literal_Render)
             (run interpreter_Get "jsonnet" "/missing.jsonnet" ["out.json"] ["/data"])
             (boot ∅ "") in
  let m := exec (reference literal_Render)
             (main interpreter_Get "cfgenerator"
                ["-in"; "/missing.jsonnet"; "-out=out.json"; "/data"])
             (boot ∅ "") in
  (result_of r = Some msg /\ trace_of r = [EvOpenInput "/missing.jsonnet" (inr err)])
  /\ (result_of m = 1
      /\ trace_of m = [EvOpenInput "/missing.jsonnet" (inr err); EvStderr msg]).
Proof.
  intros err msg r m.
  destruct (input_open_failure_is_the_only_call (reference literal_Render)
              interpreter_Get "jsonnet" "/missing.jsonnet" ["out.json"] ["/data"]
              "cfgenerator" ["-in"; "/missing.jsonnet"; "-out=out.json"; "/data"]
              (boot ∅ "") "/missing.jsonnet" err) as [Hr Hm].
  split; [apply Hr | apply Hm]; vm_compute; constructor.
Defined.

(** ** Files obtained and files released *)

Lemma run_closes_what_it_acquired Get name inputPath outputPaths volumes res tr :
  run_behaviour Get name inputPath outputPaths volumes res tr ->
  closed tr = reverse (acquired tr).
Proof.
  intros Hb. inversion Hb; subst; observe; rewrite ?app_nil_r; try done.
  - by rewrite reverse_cons.
  - by rewrite reverse_cons.
Qed.

(** X2: on every path through [run], and so through [main], the files
    closed are exactly the files that were opened successfully (the input
    and the outputs), each closed once per open, in the reverse order of
    their opening. *)
Theorem every_opened_file_is_closed_in_reverse_order {W : Type} (env : Env W)
    (Get : string -> option Interpreter) (name inputPath : string)
    (outputPaths volumes : list string) (program : string) (arguments : list string)
    (w : W) :
  let r := exec env (run Get name inputPath outputPaths volumes) w in
  let m := exec env (main Get program arguments) w in
  closed (trace_of r) = reverse (acquired (trace_of r))
  /\ closed (trace_of m) = reverse (acquired (trace_of m)).
Proof.
  intros r m. split.
  - eapply run_closes_what_it_acquired, run_behaves.
  - pose proof (main_behaves env Get program arguments w) as Hm. fold m in Hm.
    destruct Hm as [Hp | msg Hp | cfg actual args e tr Hp Hb | cfg actual args tr Hp Hb];
      try done.
    + observe. rewrite !app_nil_r. by eapply run_closes_what_it_acquired.
    + by eapply run_closes_what_it_acquired.
Qed.

(** ** The order of the calls *)

Lemma phase_zip_with {A B : Type} (g : A -> B -> Event) (n : nat)
    (l : list A) (k : list B) :
  (forall a b, phase (g a b) = n) ->
  phase <$> zip_with g l k = replicate (length (zip_with g l k)) n.
Proof.
  intros Hg. revert k. induction l as [| a l IH]; intros [| b k]; simpl; try done.
  by rewrite Hg, IH.
Qed.

Lemma length_writes c os rs : length rs = length os -> length (writes c os rs) = length os.
Proof. intros Hlen. unfold writes. rewrite length_zip_with. lia. Qed.

Lemma length_closes fs rs : length rs = length fs -> length (closes fs rs) = length fs.
Proof. intros Hlen. unfold closes. rewrite length_zip_with. lia. Qed.

Lemma phase_opens_ok paths hs :
  phase <$> opens_ok paths hs = replicate (length (opens_ok paths hs)) 0%nat.
Proof. by apply phase_zip_with. Qed.

Lemma phase_writes c os rs :
  length rs = length os -> phase <$> writes c os rs = replicate (length os) 1%nat.
Proof.
  intros Hlen. rewrite <- (length_writes c os rs Hlen). by apply phase_zip_with.
Qed.

Lemma phase_closes fs rs :
  length rs = length fs -> phase <$> closes fs rs = replicate (length fs) 2%nat.
Proof.
  intros Hlen. rewrite <- (length_closes fs rs Hlen). by apply phase_zip_with.
Qed.

Lemma replicate_snoc_cons {A : Type} (n : nat) (x : A) (l : list A) :
  replicate n x ++ x :: l = x :: replicate n x ++ l.
Proof. induction n as [| n IH]; simpl; [done | by rewrite IH]. Qed.

Lemma run_phases Get name inputPath outputPaths volumes res tr :
  run_behaviour Get name inputPath outputPaths volumes res tr ->
  exists n,
    phase <$> tr
    = replicate n 0%nat ++ replicate (length (written tr)) 1%nat
      ++ replicate (length (closed tr)) 2%nat.
Proof.
  intros Hb. inversion Hb; subst.
  - by exists 0%nat.
  - by exists 1%nat.
  - by exists 2%nat.
  - exists (S (S (S (length (opens_ok before hs))))).
    rewrite !fmap_app. observe.
    rewrite phase_opens_ok, phase_closes
      by (rewrite length_app, length_reverse; simpl; lia).
    by rewrite replicate_snoc_cons.
  - exists (S (S (length (opens_ok outputPaths hs)))).
    rewrite !fmap_app. observe. rewrite !app_nil_r.
    rewrite phase_opens_ok, phase_writes, phase_closes
      by (rewrite ?length_fmap, ?length_app, ?length_reverse; simpl; lia).
    by rewrite !length_fmap.
Qed.

(** X3: the calls of [run] come in three stages that never interleave:
    first every open and the generation, then every write, then every
    close.  No output is opened once a write has been made, and no file is
    closed before the last write. *)
Theorem run_opens_then_writes_then_closes {W : Type} (env : Env W)
    (Get : string -> option Interpreter) (name inputPath : string)
    (outputPaths volumes : list string) (w : W) :
  let r := exec env (run Get name inputPath outputPaths volumes) w in
  exists n,
    phase <$> trace_of r
    = replicate n 0%nat
      ++ replicate (length (written (trace_of r))) 1%nat
      ++ replicate (length (closed (trace_of r))) 2%nat.
Proof. intros r. eapply run_phases, run_behaves. Qed.

(** ** What is generated and what is written *)

Lemma run_generate_call Get name inputPath outputPaths volumes res tr call :
  run_behaviour Get name inputPath outputPaths volumes res tr ->
  call ∈ generate_calls tr ->
  exists runtime input,
    call = (runtime, input, volumes)
    /\ Get name = Some runtime
    /\ head tr = Some (EvOpenInput inputPath (inl input))
    /\ generate_calls tr = [call].
Proof.
  intros Hb Hin.
  inversion Hb; subst; observe_in Hin; members Hin; subst call;
    exists runtime, input; observe; by rewrite ?app_nil_r.
Qed.

(** X4: [Generate] is called at most once; when it is, it receives the
    interpreter the registry returned for the given name, the file that
    opening the input path returned, and the volume list unchanged. *)
Theorem generate_gets_the_interpreter_the_input_and_the_volumes {W : Type}
    (env : Env W) (Get : string -> option Interpreter) (name inputPath : string)
    (outputPaths volumes : list string) (w : W)
    (call : Interpreter * File * list string) :
  let r := exec env (run Get name inputPath outputPaths volumes) w in
  call ∈ generate_calls (trace_of r) ->
  exists runtime input,
    call = (runtime, input, volumes)
    /\ Get name = Some runtime
    /\ head (trace_of r) = Some (EvOpenInput inputPath (inl input))
    /\ generate_calls (trace_of r) = [call].
Proof. intros r Hin. eapply run_generate_call; [apply run_behaves | done]. Qed.

Lemma generate_gets_the_interpreter_the_input_and_the_volumes_witness :
  let r := exec (reference literal_Render)
             (run interpreter_Get "plain" "-" ["-"] ["/data/a"; "/data/b"])
             (boot ∅ "text") in
  exists runtime input,
    (Plain, os_Stdin, ["/data/a"; "/data/b"]) = (runtime, input, ["/data/a"; "/data/b"])
    /\ interpreter_Get "plain" = Some runtime
    /\ head (trace_of r) = Some (EvOpenInput "-" (inl input))
    /\ generate_calls (trace_of r) = [(Plain, os_Stdin, ["/data/a"; "/data/b"])].
Proof.
  apply (generate_gets_the_interpreter_the_input_and_the_volumes
           (reference literal_Render) interpreter_Get "plain" "-" ["-"]
           ["/data/a"; "/data/b"] (boot ∅ "text")).
  vm_compute. constructor.
Defined.

Lemma fst_opens paths hs :
  length hs = length paths ->
  (zip_with (fun (p : string) (h : File) => (p, @inl File error h)) paths hs).*1 = paths.
Proof.
  revert hs. induction paths as [| p paths IH]; intros [| h hs] Hlen;
    simpl in *; try done.
  f_equal. apply IH. lia.
Qed.

Lemma run_write_target Get name inputPath outputPaths volumes res tr o c :
  run_behaviour Get name inputPath outputPaths volumes res tr ->
  (o, c) ∈ written tr ->
  exists h p,
    o = Some h
    /\ (p, inl h) ∈ opened tr
    /\ p ∈ outputPaths
    /\ generated tr = [inl c].
Proof.
  intros Hb Hin.
  inversion Hb; subst; observe_in Hin; members Hin.
  rewrite app_nil_r in Hin.
  apply list_elem_of_fmap in Hin as (o' & [= -> ->] & Ho).
  apply list_elem_of_fmap in Ho as (h & -> & Hh).
  apply list_elem_of_lookup in Hh as (i & Hi).
  destruct (lookup_lt_is_Some_2 outputPaths i) as [p Hp].
  { apply lookup_lt_Some in Hi. lia. }
  exists h, p. observe. rewrite !app_nil_r. repeat split; try done.
  - apply list_elem_of_lookup. exists i.
    by rewrite lookup_zip_with, Hp, Hi.
  - by eapply list_elem_of_lookup_2.
Qed.

(** X5: every write of [run] goes to a file that [run] itself obtained by
    opening one of the configured output paths (never to a nil file, never
    to the input), and carries exactly the content that [Generate]
    returned. *)
Theorem writes_go_to_opened_outputs_with_generated_content {W : Type} (env : Env W)
    (Get : string -> option Interpreter) (name inputPath : string)
    (outputPaths volumes : list string) (w : W) (o : option File) (c : string) :
  let r := exec env (run Get name inputPath outputPaths volumes) w in
  (o, c) ∈ written (trace_of r) ->
  exists h p,
    o = Some h
    /\ (p, inl h) ∈ opened (trace_of r)
    /\ p ∈ outputPaths
    /\ generated (trace_of r) = [inl c].
Proof. intros r Hin. eapply run_write_target; [apply run_behaves | done]. Qed.

Lemma writes_go_to_opened_outputs_with_generated_content_witness :
  let r := exec (failing_writes (reference literal_Render))
             (run interpreter_Get "plain" "-" ["a.txt"; "-"] []) (boot ∅ "text") in
  exists h p,
    Some os_Stdout = Some h
    /\ (p, inl h) ∈ opened (trace_of r)
    /\ p ∈ ["a.txt"; "-"]
    /\ generated (trace_of r) = [inl "text"].
Proof.
  apply (writes_go_to_opened_outputs_with_generated_content
           (failing_writes (reference literal_Render)) interpreter_Get "plain" "-"
           ["a.txt"; "-"] [] (boot ∅ "text") (Some os_Stdout) "text").
  vm_compute. do 2 constructor.
Defined.

Lemma run_error_writes_nothing Get name inputPath outputPaths volumes err tr :
  run_behaviour Get name inputPath outputPaths volumes (Some err) tr ->
  written tr = [].
Proof. intros Hb. inversion Hb; subst; by observe. Qed.

(** X6: a run that fails writes nothing at all: when [run] returns an
    error, whatever the failing step, no [Fprint] call has been made, and a
    process that exits with a status other than 0 has written to no
    output. *)
Theorem a_failed_run_writes_nothing {W : Type} (env : Env W)
    (Get : string -> option Interpreter) (name inputPath : string)
    (outputPaths volumes : list string) (program : string) (arguments : list string)
    (w : W) :
  let r := exec env (run Get name inputPath outputPaths volumes) w in
  let m := exec env (main Get program arguments) w in
  (result_of r <> None -> written (trace_of r) = [])
  /\ (result_of m <> 0 -> written (trace_of m) = []).
Proof.
  intros r m. split; intros Hres.
  - pose proof (run_behaves env Get name inputPath outputPaths volumes w) as Hb.
    fold r in Hb. destruct (result_of r) as [err |]; [| done].
    by eapply run_error_writes_nothing.
  - pose proof (main_behaves env Get program arguments w) as Hm. fold m in Hm.
    destruct Hm as [Hp | msg Hp | cfg actual args e tr Hp Hb | cfg actual args tr Hp Hb];
      try done.
    observe. rewrite app_nil_r. by eapply run_error_writes_nothing.
Qed.

Lemma a_failed_run_writes_nothing_witness :
  let d : gmap string Node := {[ "blocked" := NodeDir [] ]} in
  let r := exec (reference literal_Render)
             (run interpreter_Get "plain" "-" ["-"; "blocked"] []) (boot d "text") in
  let m := exec (reference literal_Render)
             (main interpreter_Get "cfgenerator" ["-out=-"; "-out=blocked"])
             (boot d "text") in
  written (trace_of r) = [] /\ written (trace_of m) = []
  /\ stdout (world_of m) = "".
Proof.
  intros d r m.
  destruct (a_failed_run_writes_nothing (reference literal_Render) interpreter_Get
              "plain" "-" ["-"; "blocked"] [] "cfgenerator"
              ["-out=-"; "-out=blocked"] (boot d "text")) as [Hr Hm].
  split; [by apply Hr |]. split; [by apply Hm |]. reflexivity.
Defined.

(** ** Which runs fail *)

Lemma forallb_writes c os rs : forallb step_succeeded (writes c os rs) = true.
Proof.
  unfold writes. revert rs. induction os as [| o os IH]; intros [| r rs]; simpl; auto.
Qed.

Lemma forallb_closes fs rs : forallb step_succeeded (closes fs rs) = true.
Proof.
  unfold closes. revert rs. induction fs as [| f fs IH]; intros [| r rs]; simpl; auto.
Qed.

(** X7: [run] returns [nil] exactly when the interpreter is registered and
    none of its opens and not the generation failed; the answers of the
    writes and of the closes play no part in either direction. *)
Theorem run_succeeds_iff_every_step_does {W : Type} (env : Env W)
    (Get : string -> option Interpreter) (name inputPath : string)
    (outputPaths volumes : list string) (w : W) :
  let r := exec env (run Get name inputPath outputPaths volumes) w in
  result_of r = None
  <-> is_Some (Get name) /\ forallb step_succeeded (trace_of r) = true.
Proof.
  intros r.
  pose proof (run_behaves env Get name inputPath outputPaths volumes w) as Hb.
  fold r in Hb. split.
  - intros Hres. rewrite Hres in Hb. inversion Hb; subst.
    split; [by eexists |].
    cbn [app forallb step_succeeded].
    by rewrite !forallb_app, forallb_opens_ok, forallb_writes, forallb_closes.
  - intros [[runtime HG] Hall]. by eapply run_all_steps_succeeded.
Qed.

(** ** Which outputs are opened *)

Lemma run_opened_prefix Get name inputPath outputPaths volumes res tr :
  run_behaviour Get name inputPath outputPaths volumes res tr ->
  (opened tr).*1 `prefix_of` outputPaths.
Proof.
  intros Hb. inversion Hb; subst; observe; try apply prefix_nil.
  - rewrite fmap_app, fst_opens by done. simpl.
    exists after. by rewrite <- app_assoc.
  - rewrite app_nil_r, fst_opens by done. done.
Qed.

(** X8: [run] opens the outputs from the first on, in the order given,
    and stops at the first one that fails: the paths it has tried are a
    prefix of the configured ones, and a failed open is always the last
    open of the run. *)
Theorem outputs_are_opened_in_order_up_to_the_first_failure {W : Type} (env : Env W)
    (Get : string -> option Interpreter) (name inputPath : string)
    (outputPaths volumes : list string) (w : W) :
  let r := exec env (run Get name inputPath outputPaths volumes) w in
  (opened (trace_of r)).*1 `prefix_of` outputPaths
  /\ (forall i p err,
        opened (trace_of r) !! i = Some (p, inr err) ->
        length (opened (trace_of r)) = S i).
Proof.
  intros r.
  pose proof (run_behaves env Get name inputPath outputPaths volumes w) as Hb.
  fold r in Hb. split; [by eapply run_opened_prefix |].
  intros i p err Hi.
  destruct (run_failed_open_at _ _ _ _ _ _ _ _ _ _ Hb Hi)
    as (Hp & _ & runtime & input & content & hs & rc & Hhs & Hrc & Htr).
  rewrite Htr. observe. rewrite length_app, length_zip_with. simpl.
  apply lookup_lt_Some in Hp. rewrite length_take. lia.
Qed.

(** ** [main] and [run] *)

(** X9: once the command line has parsed, [main] makes the calls of [run]
    on the parsed configuration and nothing else, except that an error
    returned by [run] is printed to the standard error after them (so after
    every deferred close); the exit status is 1 exactly when [run] returned
    an error and 0 otherwise. *)
Theorem main_runs_then_reports {W : Type} (env : Env W)
    (Get : string -> option Interpreter) (program : string) (arguments : list string)
    (w : W) (cfg : Config) (actual args : list string) :
  flag_Parse arguments defaults [] = Parsed cfg actual args ->
  let c := default_outs cfg in
  let r := exec env (run Get (InterpreterName c) (In c) (Outs c) args) w in
  let m := exec env (main Get program arguments) w in
  result_of m = match result_of r with Some _ => 1 | None => 0 end
  /\ trace_of m
     = trace_of r ++ match result_of r with
                     | Some err => [EvStderr err]
                     | None => []
                     end.
Proof.
  intros HP c r m. subst m. unfold main. rewrite HP. fold c.
  rewrite exec_mbind. fold r.
  destruct r as [[[err |] w1] tr]; unfold report, result_of, trace_of; cbn [fst snd].
  - rewrite exec_call_bind. by destruct (env _ _ w1) as [[] w2].
  - by rewrite exec_mret.
Qed.

Lemma main_runs_then_reports_witness :
  let arguments := ["-interpreter=plain"; "-out=blocked"; "/data"] in
  let d : gmap string Node := {[ "blocked" := NodeDir []; "/data" := NodeDir [] ]} in
  let r := exec (reference literal_Render)
             (run interpreter_Get "plain" "-" ["blocked"] ["/data"]) (boot d "text") in
  let m := exec (reference literal_Render) (main interpreter_Get "cfgenerator" arguments)
             (boot d "text") in
  result_of m = 1
  /\ trace_of m
     = trace_of r ++ [EvStderr (open_error "blocked" "open blocked: is a directory")].
Proof.
  intros arguments d r m.
  apply (main_runs_then_reports (reference literal_Render) interpreter_Get
           "cfgenerator" arguments (boot d "text")
           {| InterpreterName := "plain"; In := "-"; Outs := ["blocked"] |}
           ["interpreter"; "out"] ["/data"]).
  reflexivity.
Defined.

(** ** [stringsFlag] *)

Lemma append_assoc (a b c : string) : (a +:+ b) +:+ c = a +:+ b +:+ c.
Proof.
  induction a as [| x a IH]; [done |].
  change (String x ((a +:+ b) +:+ c) = String x (a +:+ b +:+ c)). by f_equal.
Qed.

Lemma strings_Join_snoc (elems : list string) (e sep : string) :
  strings_Join (elems ++ [e]) sep
  = match elems with
    | [] => e
    | _ => strings_Join elems sep +:+ sep +:+ e
    end.
Proof.
  induction elems as [| x [| y elems] IH]; [done | done |].
  change (strings_Join ((x :: y :: elems) ++ [e]) sep)
    with (x +:+ sep +:+ strings_Join ((y :: elems) ++ [e]) sep).
  rewrite IH.
  change (strings_Join (x :: y :: elems) sep)
    with (x +:+ sep +:+ strings_Join (y :: elems) sep).
  by rewrite !append_assoc.
Qed.

(** X10: [Set] never fails and never drops or reorders what was there;
    [String] after [Set] is the former [String] followed by ", " and the
    new value, or the new value alone when the flag was empty. *)
Theorem stringsFlag_String_after_Set (s : stringsFlag) (value : string) :
  (stringsFlag_Set s value).2 = None
  /\ take (length s) (stringsFlag_Set s value).1 = s
  /\ last (stringsFlag_Set s value).1 = Some value
  /\ stringsFlag_String (stringsFlag_Set s value).1
     = match s with
       | [] => value
       | _ => stringsFlag_String s +:+ ", " +:+ value
       end.
Proof.
  unfold stringsFlag_Set, stringsFlag_String. cbn [fst snd].
  split; [done |]. split; [by rewrite take_app_length |].
  split; [apply last_snoc | apply strings_Join_snoc].
Qed.

(** ** Command lines made of flags *)

Lemma parse_arg_setting_joined f value :
  parse_arg ("-" +:+ flag_text f +:+ "=" +:+ value) = FlagArg (flag_text f) (Some value).
Proof. by destruct f. Qed.

Lemma parse_arg_setting_name f :
  parse_arg ("-" +:+ flag_text f) = FlagArg (flag_text f) None.
Proof. by destruct f. Qed.

Lemma formal_flag_text f : formal (flag_text f) = Some f.
Proof. by destruct f. Qed.

Lemma Value_Set_no_error f value cfg : (Value_Set f value cfg).2 = None.
Proof. by destruct f. Qed.

Lemma flag_Parse_setting s rest cfg actual :
  flag_Parse (setting_arguments s ++ rest) cfg actual
  = flag_Parse rest (Value_Set s.1.1 s.2 cfg).1 (actual ++ [flag_text s.1.1]).
Proof.
  destruct s as [[f joined] value]. cbn [fst snd].
  pose proof (Value_Set_no_error f value cfg) as Herr.
  destruct (Value_Set f value cfg) as [cfg' e] eqn:EV. simpl in Herr. subst e.
  destruct joined; cbn [setting_arguments app flag_Parse].
  - by rewrite parse_arg_setting_joined, formal_flag_text, EV.
  - by rewrite parse_arg_setting_name, formal_flag_text, EV.
Qed.

Lemma default_last_cons {A : Type} (d x : A) (l : list A) :
  default d (last (x :: l)) = default x (last l).
Proof.
  destruct l as [| y l]; [done |]. rewrite last_cons_cons.
  destruct (last (y :: l)) eqn:E; [done |]. by apply last_None in E.
Qed.

Lemma flag_Parse_settings (settings : list (Flag * bool * string)) :
  forall cfg actual volumes,
    positional volumes ->
    flag_Parse (concat (setting_arguments <$> settings) ++ volumes) cfg actual
    = Parsed
        {| InterpreterName :=
             default (InterpreterName cfg) (last (values_of interpreter_flag settings));
           In := default (In cfg) (last (values_of in_flag settings));
           Outs := Outs cfg ++ values_of out_flag settings |}
        (actual ++ ((fun s : Flag * bool * string => flag_text s.1.1) <$> settings))
        volumes.
Proof.
  induction settings as [| [[f joined] value] settings IH];
    intros cfg actual volumes Hpos.
  - simpl. rewrite !app_nil_r. destruct cfg. by apply flag_Parse_positional.
  - cbn [fmap list_fmap concat]. rewrite <- app_assoc, flag_Parse_setting.
    rewrite IH by done. cbn [fst snd]. rewrite <- app_assoc.
    destruct f; cbn [Value_Set stringsFlag_Set values_of omap list_omap
                       InterpreterName In Outs fst snd];
      repeat case_decide; try done;
      rewrite ?default_last_cons, <- ?app_assoc; done.
Qed.

(** X11: a command line made of [-interpreter], [-in] and [-out] flags,
    each written [-name=value] or [-name value] and in any order, followed
    by volume paths, parses to: the last [-interpreter] value (else
    "jsonnet"), the last [-in] value (else "-"), every [-out] value in the
    order given, and the volume paths untouched. *)
Theorem flags_parse_to_last_scalars_and_all_outs
    (settings : list (Flag * bool * string)) (volumes : list string) :
  positional volumes ->
  flag_Parse (concat (setting_arguments <$> settings) ++ volumes) defaults []
  = Parsed
      {| InterpreterName := default "jsonnet" (last (values_of interpreter_flag settings));
         In := default "-" (last (values_of in_flag settings));
         Outs := values_of out_flag settings |}
      ((fun s : Flag * bool * string => flag_text s.1.1) <$> settings)
      volumes.
Proof. intros Hpos. by rewrite flag_Parse_settings. Qed.

Lemma flags_parse_to_last_scalars_and_all_outs_witness :
  flag_Parse ["-in=a.jsonnet"; "-out"; "x.json"; "-interpreter"; "plain"; "-in";
              "b.jsonnet"; "-out=-"; "-out=x.json"; "/data/configmap"; "-in=late"]
    defaults []
  = Parsed {| InterpreterName := "plain"; In := "b.jsonnet";
              Outs := ["x.json"; "-"; "x.json"] |}
           ["in"; "out"; "interpreter"; "in"; "out"; "out"]
           ["/data/configmap"; "-in=late"].
Proof.
  apply (flags_parse_to_last_scalars_and_all_outs
           [(in_flag, true, "a.jsonnet"); (out_flag, false, "x.json");
            (interpreter_flag, false, "plain"); (in_flag, false, "b.jsonnet");
            (out_flag, true, "-"); (out_flag, true, "x.json")]
           ["/data/configmap"; "-in=late"]).
  reflexivity.
Defined.

Lemma flag_Parse_counts_outs (n : nat) :
  forall arguments cfg actual cfg' actual' args,
    (length arguments <= n)%nat ->
    flag_Parse arguments cfg actual = Parsed cfg' actual' args ->
    (length (Outs cfg') + length (filter (.= "out") actual)
     = length (Outs cfg) + length (filter (.= "out") actual'))%nat.
Proof.
  induction n as [| n IH]; intros arguments cfg actual cfg' actual' args Hn HP.
  - destruct arguments; [| simpl in Hn; lia].
    simpl in HP. by injection HP as <- <- <-.
  - destruct arguments as [| s rest].
    { simpl in HP. by injection HP as <- <- <-. }
    apply flag_Parse_cons in HP
      as [[-> ->] | (name & f & value & rest1 & Hf & Hlen & _ & HP)]; [done |].
    apply IH in HP; [| simpl in Hn; lia].
    apply formal_name in Hf. rewrite filter_app, length_app in HP.
    destruct f; subst name; simpl in HP;
      rewrite ?length_app in HP; simpl in HP; lia.
Qed.

(** X12: after parsing, [cfg.Outs] has exactly one entry per [-out] flag
    that was set.  So the run [main] starts always has at least one
    output, and the standard output "-" is added only when no [-out] was
    given: with any [-out] flag the outputs are the given ones alone. *)
Theorem outputs_are_the_out_flags_or_stdout (arguments : list string)
    (cfg : Config) (actual args : list string) :
  flag_Parse arguments defaults [] = Parsed cfg actual args ->
  length (Outs cfg) = length (filter (.= "out") actual)
  /\ Outs (default_outs cfg) <> []
  /\ ("out" ∈ actual -> default_outs cfg = cfg).
Proof.
  intros HP.
  apply (flag_Parse_counts_outs (length arguments)) in HP; [| done].
  simpl in HP. split; [lia |]. unfold default_outs. split.
  - destruct (Outs cfg) as [| o outs] eqn:E; simpl; [done | by rewrite E].
  - intros Hin.
    assert (filter (.= "out") actual <> []) as Hne.
    { intros Hnil. assert ("out" ∈ filter (.= "out") actual) as Hf
        by (by apply list_elem_of_filter).
      rewrite Hnil in Hf. by apply elem_of_nil in Hf. }
    destruct (filter (.= "out") actual); [done |].
    destruct (Outs cfg); [simpl in HP; lia | done].
Qed.

Lemma outputs_are_the_out_flags_or_stdout_witness :
  let cfg := {| InterpreterName := "jsonnet"; In := "-"; Outs := ["app.json"] |} in
  length (Outs cfg) = 1%nat /\ Outs (default_outs cfg) <> [] /\ default_outs cfg = cfg.
Proof.
  intros cfg.
  destruct (outputs_are_the_out_flags_or_stdout ["-out=app.json"; "/data"] cfg
              ["out"] ["/data"] eq_refl) as (Hlen & Hne & Hsame).
  split; [exact Hlen |]. split; [exact Hne |].
  apply Hsame. constructor.
Defined.

(** ** [filepath.Base] *)

Lemma take_while_all {A : Type} (f : A -> bool) (l : list A) :
  Forall (fun x => f x = true) (take_while f l).
Proof.
  induction l as [| x l IH]; simpl; [constructor |].
  destruct (f x) eqn:E; by constructor.
Qed.

Lemma existsb_none {A : Type} (f : A -> bool) (l : list A) :
  Forall (fun x => f x = false) l <-> existsb f l = false.
Proof.
  induction l as [| x l IH]; simpl.
  - split; [done | constructor].
  - rewrite Forall_cons, IH, orb_false_iff. done.
Qed.

Lemma take_while_id {A : Type} (f : A -> bool) (l : list A) :
  Forall (fun x => f x = true) l -> take_while f l = l.
Proof.
  induction 1 as [| x l Hx _ IH]; simpl; [done |]. by rewrite Hx, IH.
Qed.

Lemma drop_while_none {A : Type} (f : A -> bool) (l : list A) :
  Forall (fun x => f x = false) l -> drop_while f l = l.
Proof. destruct 1 as [| x l Hx _]; simpl; [done |]. by rewrite Hx. Qed.

Lemma string_of_list_ascii_nil (l : list ascii) :
  String.string_of_list_ascii l = EmptyString -> l = [].
Proof. by destruct l. Qed.

Lemma filepath_Base_without_separator (path : string) :
  path <> EmptyString -> has_separator path = false -> filepath_Base path = path.
Proof.
  intros Hne Hsep. unfold has_separator in Hsep. apply existsb_none in Hsep.
  destruct path as [| c path]; [done |]. unfold filepath_Base.
  set (cs := String.list_ascii_of_string (String c path)) in *.
  assert (Forall (fun x => is_separator x = false) (reverse cs)) as Hrev
    by (by apply Forall_reverse).
  rewrite (drop_while_none _ _ Hrev).
  rewrite take_while_id
    by (eapply Forall_impl; [exact Hrev | by intros x ->]).
  destruct (reverse cs) as [| x r] eqn:Er.
  - apply (f_equal reverse) in Er. rewrite reverse_involutive in Er. done.
  - rewrite <- Er, reverse_involutive. apply String.string_of_list_ascii_of_string.
Qed.

Lemma filepath_Base_shape (path : string) :
  filepath_Base path = "/"
  \/ (filepath_Base path <> EmptyString /\ has_separator (filepath_Base path) = false).
Proof.
  destruct path as [| c path]; [by right |]. unfold filepath_Base.
  set (stripped := drop_while is_separator _).
  pose proof (take_while_all (fun c => negb (is_separator c)) stripped) as Hall.
  destruct (take_while _ stripped) as [| x last] eqn:El; [by left |].
  right. split.
  - intros Hnil. apply string_of_list_ascii_nil in Hnil.
    apply (f_equal reverse) in Hnil. by rewrite reverse_involutive in Hnil.
  - unfold has_separator. rewrite String.list_ascii_of_string_of_list_ascii.
    apply existsb_none, Forall_reverse.
    eapply Forall_impl; [exact Hall |]. intros y Hy. by apply negb_true_iff.
Qed.

(** X13: the program name [main] hands to the usage text,
    [filepath.Base(os.Args[0])], is never empty; it contains a path
    separator only when it is the root "/" itself; a non-empty name without
    separator is returned as it is, so taking the base twice changes
    nothing. *)
Theorem filepath_Base_is_a_name (path : string) :
  filepath_Base path <> EmptyString
  /\ (has_separator (filepath_Base path) = true -> filepath_Base path = "/")
  /\ (path <> EmptyString -> has_separator path = false -> filepath_Base path = path)
  /\ filepath_Base (filepath_Base path) = filepath_Base path.
Proof.
  assert (path <> EmptyString -> has_separator path = false ->
          filepath_Base path = path) as Hsame
    by apply filepath_Base_without_separator.
  destruct (filepath_Base_shape path) as [Hroot | [Hne Hsep]].
  - split; [by rewrite Hroot |]. split; [done |]. split; [done |].
    by rewrite Hroot.
  - split; [done |]. split; [congruence |]. split; [done |].
    by apply filepath_Base_without_separator.
Qed.

Lemma filepath_Base_is_a_name_witness :
  filepath_Base "/usr/local/bin/cfgenerator" = "cfgenerator"
  /\ filepath_Base "cfgenerator" = "cfgenerator"
  /\ filepath_Base "//" = "/".
Proof.
  destruct (filepath_Base_is_a_name "cfgenerator") as (_ & _ & Hsame & _).
  destruct (filepath_Base_is_a_name "//") as (_ & Hroot & _ & _).
  split; [reflexivity |]. split; [by apply Hsame | by apply Hroot].
Defined.

(** ** Rejected command lines *)

Lemma flag_Parse_settings_then (settings : list (Flag * bool * string)) :
  forall rest cfg actual,
    exists cfg',
      flag_Parse (concat (setting_arguments <$> settings) ++ rest) cfg actual
      = flag_Parse rest cfg'
          (actual ++ ((fun s : Flag * bool * string => flag_text s.1.1) <$> settings)).
Proof.
  induction settings as [| s settings IH]; intros rest cfg actual.
  - exists cfg. simpl. by rewrite app_nil_r.
  - cbn [fmap list_fmap concat]. rewrite <- app_assoc, flag_Parse_setting.
    destruct (IH rest (Value_Set s.1.1 s.2 cfg).1 (actual ++ [flag_text s.1.1]))
      as [cfg' ->].
    exists cfg'. simpl. by rewrite <- app_assoc.
Qed.

(** X14: a flag that [main] does not define (other than [-h] and [-help])
    makes the process exit with status 2 having only printed "flag provided
    but not defined: -<name>" and the usage for the base name of the
    program, wherever the flag stands among valid flags: no file is opened,
    so an output named by an earlier [-out] is not created or truncated. *)
Theorem undefined_flag_is_rejected_before_any_file_is_touched {W : Type}
    (env : Env W) (Get : string -> option Interpreter) (program : string)
    (settings : list (Flag * bool * string)) (s name : string)
    (value : option string) (rest : list string) (w : W) :
  let arguments := concat (setting_arguments <$> settings) ++ s :: rest in
  let m := exec env (main Get program arguments) w in
  parse_arg s = FlagArg name value ->
  formal name = None ->
  name <> "help" ->
  name <> "h" ->
  result_of m = 2
  /\ trace_of m = [EvStderr ("flag provided but not defined: -" +:+ name);
                   EvUsage (filepath_Base program)].
Proof.
  intros arguments m Hs Hf Hhelp Hh. subst m. unfold main, arguments.
  destruct (flag_Parse_settings_then settings (s :: rest) defaults []) as [cfg' ->].
  cbn [flag_Parse]. rewrite Hs, Hf.
  destruct (String.eqb_spec name "help"); [done |].
  destruct (String.eqb_spec name "h"); [done |].
  cbn [orb]. rewrite exec_call_bind. destruct (env _ _ w) as [[] w1].
  rewrite exec_call_bind. by destruct (env _ _ w1) as [[] w2].
Qed.

Lemma undefined_flag_is_rejected_before_any_file_is_touched_witness :
  let d : gmap string Node := {[ "app.json" := NodeFile "kept" ]} in
  let m := exec (reference literal_Render)
             (main interpreter_Get "/usr/bin/cfgenerator"
                ["-out=app.json"; "-in"; "t.jsonnet"; "--verbose=1"; "/data"])
             (boot d "{}") in
  (result_of m = 2
   /\ trace_of m = [EvStderr "flag provided but not defined: -verbose";
                    EvUsage "cfgenerator"])
  /\ disk (world_of m) !! "app.json" = Some (NodeFile "kept").
Proof.
  intros d m. split; [| reflexivity].
  apply (undefined_flag_is_rejected_before_any_file_is_touched
           (reference literal_Render) interpreter_Get "/usr/bin/cfgenerator"
           [(out_flag, true, "app.json"); (in_flag, false, "t.jsonnet")]
           "--verbose=1" "verbose" (Some "1") ["/data"] (boot d "{}"));
    [reflexivity | reflexivity | discriminate | discriminate].
Defined.
